(** * Verification of [zip.go]: the merge engine [ZipWithGaps] and [Zip]

    The Go file drives a caller-supplied [Zipper] (an interface whose
    methods may read and mutate the caller's data) with two integer
    cursors.  The embedding below passes the caller's data explicitly as a
    state of type [St]; every interface method is a state transformer.
    Interface methods are taken to return (a method that panics or loops
    by itself is outside what [zip.go] decides). *)

From Stdlib Require Import ZArith List Lia Bool Sorted Permutation.
Import ListNotations.
Local Open Scope Z_scope.

(** ** Go's [int]

    [int] is a signed machine integer; [i++] wraps around.  The width is
    that of the 64-bit targets; the proofs only use that a cursor below an
    [int] length can be incremented without wrapping. *)
Module GoInt.

Definition bits : Z := 64.
Definition min_int : Z := - 2 ^ (bits - 1).
Definition max_int : Z := 2 ^ (bits - 1) - 1.

Definition wrap (x : Z) : Z := (x - min_int) mod 2 ^ bits + min_int.

(** [i++] *)
Definition incr (i : Z) : Z := wrap (i + 1).

Definition is_int (x : Z) : Prop := min_int <= x <= max_int.

End GoInt.

(** ** The ordering primitive

    [Ord], [Less], [Equal], [Greater] and the [Comparable] interface are
    declared in a file of the package other than [zip.go].  [zip.go]
    formats a comparison result with [%d], so [Ord] is an integer type;
    the three constants are parameters of the development. *)
Definition Ord : Type := Z.

Class OrdValues : Type := {
  Less : Ord;
  Equal : Ord;
  Greater : Ord
}.

(** Modelled from the spec: "three distinct, comparable values
    representing Less, Equal, Greater" (the constant declarations are not
    in [zip.go]). *)
Definition ord_distinct (ov : OrdValues) : Prop :=
  Less <> Equal /\ Less <> Greater /\ Equal <> Greater.

Definition valid_ord {ov : OrdValues} (c : Ord) : Prop :=
  c = Less \/ c = Equal \/ c = Greater.

(** ** The [Zipper] interface *)
Record Zipper (St : Type) : Type := {
  Compare : Z -> Z -> St -> Ord * St;
  LenLeft : St -> Z * St;
  LenRight : St -> Z * St;
  AddLeft : Z -> St -> St;
  AddRight : Z -> St -> St;
  AddBoth : Z -> Z -> St -> St
}.

Arguments Compare {St} z i j s : rename.
Arguments LenLeft {St} z s : rename.
Arguments LenRight {St} z s : rename.
Arguments AddLeft {St} z i s : rename.
Arguments AddRight {St} z j s : rename.
Arguments AddBoth {St} z i j s : rename.

(** The two panics of [ZipWithGaps], with the values their messages
    print. *)
Inductive Panic : Type :=
| NegativeLengths (maxLeft maxRight : Z)
| BadCompare (c : Ord).

(** How a call ends.  [OutOfFuel] belongs to the model only: the [for]
    loop is run for at most [fuel] iterations. *)
Inductive Outcome (St : Type) : Type :=
| Returned (s : St)
| Panicked (p : Panic) (s : St)
| OutOfFuel (s : St).

Arguments Returned {St} s.
Arguments Panicked {St} p s.
Arguments OutOfFuel {St} s.

Definition outcome_state {St : Type} (o : Outcome St) : St :=
  match o with
  | Returned s => s
  | Panicked _ s => s
  | OutOfFuel s => s
  end.

Definition map_outcome {A B : Type} (f : A -> B) (o : Outcome A) : Outcome B :=
  match o with
  | Returned s => Returned (f s)
  | Panicked p s => Panicked p (f s)
  | OutOfFuel s => OutOfFuel (f s)
  end.

(** One pass through the body of the [for] loop. *)
Inductive Iteration (St : Type) : Type :=
| Next (i j : Z) (s : St)
| Abort (p : Panic) (s : St).

Arguments Next {St} i j s.
Arguments Abort {St} p s.

Section Engine.

Context {ov : OrdValues} {St : Type}.

(** The loop condition [i < maxLeft || j < maxRight]. *)
Definition guard (maxLeft maxRight i j : Z) : bool :=
  (i <? maxLeft) || (j <? maxRight).

(** The outer [switch] and, in its [default] case, the inner one. *)
Definition body (z : Zipper St) (maxLeft maxRight i j : Z) (s : St)
  : Iteration St :=
  if i >=? maxLeft then
    Next i (GoInt.incr j) (AddRight z j s)
  else if j >=? maxRight then
    Next (GoInt.incr i) j (AddLeft z i s)
  else
    let (c, s') := Compare z i j s in
    if c =? Less then
      Next (GoInt.incr i) j (AddLeft z i s')
    else if c =? Greater then
      Next i (GoInt.incr j) (AddRight z j s')
    else if c =? Equal then
      Next (GoInt.incr i) (GoInt.incr j) (AddBoth z i j s')
    else
      Abort (BadCompare c) s'.

Fixpoint loop (fuel : nat) (z : Zipper St) (maxLeft maxRight i j : Z) (s : St)
  : Outcome St :=
  if guard maxLeft maxRight i j then
    match fuel with
    | O => OutOfFuel s
    | S fuel' =>
        match body z maxLeft maxRight i j s with
        | Next i' j' s' => loop fuel' z maxLeft maxRight i' j' s'
        | Abort p s' => Panicked p s'
        end
    end
  else Returned s.

Definition ZipWithGaps (fuel : nat) (z : Zipper St) (s : St) : Outcome St :=
  let (maxLeft, s1) := LenLeft z s in
  let (maxRight, s2) := LenRight z s1 in
  if (maxLeft <? 0) || (maxRight <? 0) then
    Panicked (NegativeLengths maxLeft maxRight) s2
  else
    loop fuel z maxLeft maxRight 0 0 s2.

(** [alwaysEqualZipper] embeds a [Zipper] and overrides [Compare]; the
    embedded [Compare] is not called. *)
Definition alwaysEqualZipper (z : Zipper St) : Zipper St := {|
  Compare := fun _ _ s => (Equal, s);
  LenLeft := LenLeft z;
  LenRight := LenRight z;
  AddLeft := AddLeft z;
  AddRight := AddRight z;
  AddBoth := AddBoth z
|}.

Definition Zip (fuel : nat) (z : Zipper St) (s : St) : Outcome St :=
  ZipWithGaps fuel (alwaysEqualZipper z) s.

(** The states of the loop: the two cursors and the caller's data. *)
Definition LoopState : Type := (Z * Z * St)%type.

(** The loop entered at a loop state. *)
Definition run (fuel : nat) (z : Zipper St) (maxLeft maxRight : Z)
  (a : LoopState) : Outcome St :=
  let '(i, j, s) := a in loop fuel z maxLeft maxRight i j s.

(** [iterates z m n k a b]: from [a], the loop runs [k] iterations
    (each with the loop condition true and without panic) and is at [b]. *)
Inductive iterates (z : Zipper St) (maxLeft maxRight : Z)
  : nat -> LoopState -> LoopState -> Prop :=
| iterates_O : forall a, iterates z maxLeft maxRight O a a
| iterates_S : forall k i j s i' j' s' b,
    guard maxLeft maxRight i j = true ->
    body z maxLeft maxRight i j s = Next i' j' s' ->
    iterates z maxLeft maxRight k (i', j', s') b ->
    iterates z maxLeft maxRight (S k) (i, j, s) b.

End Engine.

(** ** Observing the calls

    A caller sees the engine only through the calls made on its
    [Zipper].  [traced z] is [z] with a log of the calls it receives, in
    call order. *)
Inductive Call : Type :=
| CLenLeft
| CLenRight
| CCompare (i j : Z)
| CAddLeft (i : Z)
| CAddRight (j : Z)
| CAddBoth (i j : Z).

Definition traced {St : Type} (z : Zipper St) : Zipper (St * list Call) := {|
  Compare := fun i j st =>
    let (c, s') := Compare z i j (fst st) in (c, (s', snd st ++ [CCompare i j]));
  LenLeft := fun st =>
    let (n, s') := LenLeft z (fst st) in (n, (s', snd st ++ [CLenLeft]));
  LenRight := fun st =>
    let (n, s') := LenRight z (fst st) in (n, (s', snd st ++ [CLenRight]));
  AddLeft := fun i st => (AddLeft z i (fst st), snd st ++ [CAddLeft i]);
  AddRight := fun j st => (AddRight z j (fst st), snd st ++ [CAddRight j]);
  AddBoth := fun i j st => (AddBoth z i j (fst st), snd st ++ [CAddBoth i j])
|}.

(** The calls one pass through the loop body makes on [z], from cursors
    [i], [j] and data [s]. *)
Definition iteration_calls {ov : OrdValues} {St : Type} (z : Zipper St)
  (maxLeft maxRight i j : Z) (s : St) : list Call :=
  if i >=? maxLeft then [CAddRight j]
  else if j >=? maxRight then [CAddLeft i]
  else
    let c := fst (Compare z i j s) in
    CCompare i j ::
      (if c =? Less then [CAddLeft i]
       else if c =? Greater then [CAddRight j]
       else if c =? Equal then [CAddBoth i j]
       else []).

Definition is_append (c : Call) : bool :=
  match c with
  | CAddLeft _ | CAddRight _ | CAddBoth _ _ => true
  | _ => false
  end.

Definition is_len (c : Call) : bool :=
  match c with
  | CLenLeft | CLenRight => true
  | _ => false
  end.

(** The append calls of a log. *)
Definition appends (tr : list Call) : list Call := filter is_append tr.

(** The left indices passed to [AddLeft] and [AddBoth], in call order. *)
Fixpoint left_indices (tr : list Call) : list Z :=
  match tr with
  | [] => []
  | CAddLeft i :: tr' => i :: left_indices tr'
  | CAddBoth i _ :: tr' => i :: left_indices tr'
  | _ :: tr' => left_indices tr'
  end.

(** The right indices passed to [AddRight] and [AddBoth], in call order. *)
Fixpoint right_indices (tr : list Call) : list Z :=
  match tr with
  | [] => []
  | CAddRight j :: tr' => j :: right_indices tr'
  | CAddBoth _ j :: tr' => j :: right_indices tr'
  | _ :: tr' => right_indices tr'
  end.

(** A call whose indices are in range for lengths [m] and [n]. *)
Definition call_in_range (m n : Z) (c : Call) : Prop :=
  match c with
  | CLenLeft | CLenRight => True
  | CCompare i j | CAddBoth i j => 0 <= i < m /\ 0 <= j < n
  | CAddLeft i => 0 <= i < m
  | CAddRight j => 0 <= j < n
  end.

(** [upto lo len] is [lo; lo+1; ...; lo+len-1]. *)
Fixpoint upto (lo : Z) (len : nat) : list Z :=
  match len with
  | O => []
  | S len' => lo :: upto (lo + 1) len'
  end.

(** The indices [lo], ..., [hi - 1] in increasing order. *)
Definition range (lo hi : Z) : list Z := upto lo (Z.to_nat (hi - lo)).

(** What [k] iterations from cursors [(i, j)] to [(i', j')] log, for
    lengths [m] and [n]. *)
Definition segment (m n : Z) (k : nat) (i j i' j' : Z) (evs : list Call)
  : Prop :=
  i <= i' <= m /\ j <= j' <= n /\
  Z.max (i' - i) (j' - j) <= Z.of_nat k <= (i' - i) + (j' - j) /\
  left_indices evs = range i i' /\
  right_indices evs = range j j' /\
  length (appends evs) = k /\
  Forall (call_in_range m n) evs /\
  Forall (fun c => is_len c = false) evs.

(** The calls the spec lists for [Zip] on lengths [m] and [n]. *)
Definition zip_calls (m n : Z) : list Call :=
  map (fun i => CAddBoth i i) (range 0 (Z.min m n))
  ++ (if n <? m then map CAddLeft (range n m) else map CAddRight (range m n)).

(** ** Concrete adapters *)

(** The integer constants used for the concrete runs. *)
Definition go_ord : OrdValues := {| Less := -1; Equal := 0; Greater := 1 |}.

(** What a slice adapter appends to its output. *)
Inductive Entry : Type :=
| OnlyLeft (x : Z)
| OnlyRight (y : Z)
| Both (x y : Z).

Definition at_index (l : list Z) (i : Z) : Z := nth (Z.to_nat i) l 0.

(** Modelled from the spec: the adapter of the concrete scenarios, two
    integer slices compared by numeric ordering, with an output the
    adapter owns (the package has no adapter of its own in [zip.go]). *)
Definition sliceZipper {ov : OrdValues} (left right : list Z)
  : Zipper (list Entry) := {|
  Compare := fun i j out =>
    let x := at_index left i in
    let y := at_index right j in
    (if x <? y then Less else if y <? x then Greater else Equal, out);
  LenLeft := fun out => (Z.of_nat (length left), out);
  LenRight := fun out => (Z.of_nat (length right), out);
  AddLeft := fun i out => out ++ [OnlyLeft (at_index left i)];
  AddRight := fun j out => out ++ [OnlyRight (at_index right j)];
  AddBoth := fun i j out => out ++ [Both (at_index left i) (at_index right j)]
|}.

(** The adapter of the scenario left = [1,3,5], right = [2,3,4]. *)
Definition scenario : Zipper (list Entry) :=
  sliceZipper (ov := go_ord) [1; 3; 5] [2; 3; 4].

(** A [Zipper] with fixed lengths and a comparison given by a function of
    the indices; it owns no data. *)
Definition indexZipper (m n : Z) (cmp : Z -> Z -> Ord) : Zipper unit := {|
  Compare := fun i j s => (cmp i j, s);
  LenLeft := fun s => (m, s);
  LenRight := fun s => (n, s);
  AddLeft := fun _ s => s;
  AddRight := fun _ s => s;
  AddBoth := fun _ _ s => s
|}.

(** A [Zipper] whose reported lengths change: the state counts the calls
    it has received and both lengths are [2] plus that count. *)
Definition growingZipper {ov : OrdValues} : Zipper Z := {|
  Compare := fun _ _ s => (Equal, s + 1);
  LenLeft := fun s => (2 + s, s + 1);
  LenRight := fun s => (2 + s, s + 1);
  AddLeft := fun _ s => s + 1;
  AddRight := fun _ s => s + 1;
  AddBoth := fun _ _ s => s + 1
|}.

(** ** Merging two slices

    What the engine does when the comparison is the numeric order of the
    elements of two slices, whatever the adapter does with the appends. *)

(** The comparison "with respect to the left value" of the interface
    comment: [Less] when the left element is smaller, [Greater] when it
    is larger, [Equal] otherwise. *)
Definition compare_Z {ov : OrdValues} (x y : Z) : Ord :=
  if x <? y then Less else if y <? x then Greater else Equal.

(** [z] compares, at in-range indices, the elements of [left] and
    [right]. *)
Definition compares_slices {ov : OrdValues} {St : Type} (z : Zipper St)
  (left right : list Z) : Prop :=
  forall i j s,
    0 <= i < Z.of_nat (length left) -> 0 <= j < Z.of_nat (length right) ->
    fst (Compare z i j s) = compare_Z (at_index left i) (at_index right j).

(** The elements the append calls of a log add, in call order. *)
Fixpoint merged (left right : list Z) (tr : list Call) : list Z :=
  match tr with
  | [] => []
  | CAddLeft i :: tr' => at_index left i :: merged left right tr'
  | CAddRight j :: tr' => at_index right j :: merged left right tr'
  | CAddBoth i j :: tr' =>
      at_index left i :: at_index right j :: merged left right tr'
  | _ :: tr' => merged left right tr'
  end.

(** What an append call says about the two slices: [AddBoth] pairs equal
    elements, [AddLeft] adds an element that is not on the right,
    [AddRight] one that is not on the left. *)
Definition call_classifies (left right : list Z) (c : Call) : Prop :=
  match c with
  | CAddBoth i j => at_index left i = at_index right j
  | CAddLeft i => ~ In (at_index left i) right
  | CAddRight j => ~ In (at_index right j) left
  | _ => True
  end.

Definition pairs_equal (left right : list Z) (c : Call) : Prop :=
  match c with
  | CAddBoth i j => at_index left i = at_index right j
  | _ => True
  end.

Definition is_compare (c : Call) : bool :=
  match c with
  | CCompare _ _ => true
  | _ => false
  end.

(** The number of [Compare] calls of a log. *)
Definition compares (tr : list Call) : nat := length (filter is_compare tr).

(** The comparisons still possible from cursors [(i, j)]: none once a
    side is exhausted. *)
Definition compare_budget (m n i j : Z) : Z :=
  if (i <? m) && (j <? n) then (m - i) + (n - j) - 1 else 0.

(** One iteration of a merge of [left] and [right], of lengths [m] and
    [n]: the cursors before and after, and the calls made. *)
Inductive merge_step (left right : list Z) (m n : Z) (i j : Z)
  : Z -> Z -> list Call -> Prop :=
| merge_left_exhausted :
    m <= i -> j < n ->
    merge_step left right m n i j i (j + 1) [CAddRight j]
| merge_right_exhausted :
    i < m -> n <= j ->
    merge_step left right m n i j (i + 1) j [CAddLeft i]
| merge_less :
    i < m -> j < n -> at_index left i < at_index right j ->
    merge_step left right m n i j (i + 1) j [CCompare i j; CAddLeft i]
| merge_greater :
    i < m -> j < n -> at_index right j < at_index left i ->
    merge_step left right m n i j i (j + 1) [CCompare i j; CAddRight j]
| merge_equal :
    i < m -> j < n -> at_index left i = at_index right j ->
    merge_step left right m n i j (i + 1) (j + 1)
               [CCompare i j; CAddBoth i j].

(** A sequence of merge iterations and the calls it makes. *)
Inductive merge_run (left right : list Z) (m n : Z)
  : Z -> Z -> Z -> Z -> list Call -> Prop :=
| merge_run_nil : forall i j, merge_run left right m n i j i j []
| merge_run_cons : forall i j i1 j1 calls i' j' evs,
    merge_step left right m n i j i1 j1 calls ->
    merge_run left right m n i1 j1 i' j' evs ->
    merge_run left right m n i j i' j' (calls ++ evs).

(** An element at or after the cursors [(i, j)]: one still to be added. *)
Definition pending (left right : list Z) (m n i j : Z) (v : Z) : Prop :=
  (exists a, i <= a < m /\ v = at_index left a) \/
  (exists b, j <= b < n /\ v = at_index right b).

(** Every element before one cursor is below the element at the other
    cursor. *)
Definition separated (left right : list Z) (m n i j : Z) : Prop :=
  (i < m -> forall b, 0 <= b < j -> at_index right b < at_index left i) /\
  (j < n -> forall a, 0 <= a < i -> at_index left a < at_index right j).

(** ** Exchanging the two sides *)

(** The comparison seen from the right element. *)
Definition flip_ord {ov : OrdValues} (c : Ord) : Ord :=
  if c =? Less then Greater else if c =? Greater then Less else c.

(** [z] with its two sides exchanged: the right collection as the left
    one, the comparison taken from the other element. *)
Definition mirrored {ov : OrdValues} {St : Type} (z : Zipper St)
  : Zipper St := {|
  Compare := fun j i s => let (c, s') := Compare z i j s in (flip_ord c, s');
  LenLeft := LenRight z;
  LenRight := LenLeft z;
  AddLeft := AddRight z;
  AddRight := AddLeft z;
  AddBoth := fun j i s => AddBoth z i j s
|}.

Definition swap_cursors {St : Type} (r : Iteration St) : Iteration St :=
  match r with
  | Next i j s => Next j i s
  | Abort p s => Abort p s
  end.

(** The outcome with the two lengths of a [NegativeLengths] panic
    exchanged. *)
Definition swap_lengths {St : Type} (o : Outcome St) : Outcome St :=
  match o with
  | Panicked (NegativeLengths a b) s => Panicked (NegativeLengths b a) s
  | _ => o
  end.

(** ** Positional pairing *)

(** Two slices paired position by position up to the shorter length,
    followed by the rest of the longer one. *)
Fixpoint pair_up (left right : list Z) : list Entry :=
  match left, right with
  | [], _ => map OnlyRight right
  | _, [] => map OnlyLeft left
  | x :: l, y :: r => Both x y :: pair_up l r
  end.

(** What a slice adapter adds to its output on each call of a log. *)
Definition entry_of (left right : list Z) (c : Call) : list Entry :=
  match c with
  | CAddLeft i => [OnlyLeft (at_index left i)]
  | CAddRight j => [OnlyRight (at_index right j)]
  | CAddBoth i j => [Both (at_index left i) (at_index right j)]
  | _ => []
  end.

Definition entries (left right : list Z) (tr : list Call) : list Entry :=
  flat_map (entry_of left right) tr.

(** * Proofs *)

(** ** Machine integers *)
Module GoIntFacts.
Import GoInt.

Lemma min_int_val : min_int = -9223372036854775808.
Proof. reflexivity. Qed.

Lemma max_int_val : max_int = 9223372036854775807.
Proof. reflexivity. Qed.

Lemma wrap_is_int (x : Z) : is_int x -> wrap x = x.
Proof.
  unfold is_int, wrap. rewrite min_int_val, max_int_val.
  change (2 ^ bits) with 18446744073709551616.
  intros H. rewrite Z.mod_small; lia.
Qed.

(** A cursor below an [int] bound is incremented without wrapping. *)
Lemma incr_below (i m : Z) :
  0 <= i -> i < m -> m <= max_int -> incr i = i + 1.
Proof.
  intros H0 Hlt Hm. unfold incr. apply wrap_is_int.
  unfold is_int. rewrite min_int_val. lia.
Qed.

End GoIntFacts.

(** ** The constants of the concrete runs *)
Lemma go_ord_distinct : ord_distinct go_ord.
Proof. unfold ord_distinct; simpl. repeat split; discriminate. Qed.

(** ** The loop and its iterations *)
Section LoopFacts.

Context {ov : OrdValues} {St : Type}.
Variable z : Zipper St.
Variables m n : Z.

Lemma loop_exit (fuel : nat) (i j : Z) (s : St) :
  guard m n i j = false -> loop fuel z m n i j s = Returned s.
Proof. intros H. destruct fuel; simpl; rewrite H; reflexivity. Qed.

Lemma loop_next (fuel : nat) (i j : Z) (s : St) (i' j' : Z) (s' : St) :
  guard m n i j = true ->
  body z m n i j s = Next i' j' s' ->
  loop (S fuel) z m n i j s = loop fuel z m n i' j' s'.
Proof. intros Hg Hb. simpl. rewrite Hg, Hb. reflexivity. Qed.

Lemma loop_abort (fuel : nat) (i j : Z) (s : St) (p : Panic) (s' : St) :
  guard m n i j = true ->
  body z m n i j s = Abort p s' ->
  loop (S fuel) z m n i j s = Panicked p s'.
Proof. intros Hg Hb. simpl. rewrite Hg, Hb. reflexivity. Qed.

(** [k] iterations consume [k] units of fuel. *)
Lemma run_iterates (k : nat) (a b : LoopState) :
  iterates z m n k a b ->
  forall fuel, run (k + fuel) z m n a = run fuel z m n b.
Proof.
  induction 1 as [a | k i j s i' j' s' b Hg Hb _ IH]; intros fuel.
  - reflexivity.
  - rewrite <- IH. simpl. rewrite Hg, Hb. reflexivity.
Qed.

(** With less fuel than iterations the model stops short. *)
Lemma run_short (k : nat) (a b : LoopState) :
  iterates z m n k a b ->
  forall fuel, (fuel < k)%nat -> exists s, run fuel z m n a = OutOfFuel s.
Proof.
  induction 1 as [a | k i j s i' j' s' b Hg Hb _ IH]; intros fuel Hlt.
  - lia.
  - destruct fuel as [| fuel]; simpl; rewrite Hg.
    + eauto.
    + rewrite Hb. apply IH. lia.
Qed.

Lemma iterates_app (k k' : nat) (a b c : LoopState) :
  iterates z m n k a b -> iterates z m n k' b c ->
  iterates z m n (k + k') a c.
Proof.
  induction 1 as [a | k i j s i' j' s' b Hg Hb _ IH]; intros Hbc.
  - exact Hbc.
  - simpl. eapply iterates_S; eauto.
Qed.

(** Every bounded run is a number of iterations followed by the exit of
    the loop, the end of the fuel, or a panic in the body. *)
Lemma run_decompose (fuel : nat) (a : LoopState) :
  exists k i j s,
    (k <= fuel)%nat /\ iterates z m n k a (i, j, s) /\
    ((guard m n i j = false /\ run fuel z m n a = Returned s) \/
     (k = fuel /\ guard m n i j = true /\ run fuel z m n a = OutOfFuel s) \/
     (guard m n i j = true /\
      exists p s', body z m n i j s = Abort p s' /\
                   run fuel z m n a = Panicked p s')).
Proof.
  revert a. induction fuel as [| fuel IH]; intros [[i j] s].
  - exists O, i, j, s. split; [lia |]. split; [constructor |].
    simpl. destruct (guard m n i j) eqn:Hg; auto.
  - destruct (guard m n i j) eqn:Hg.
    + destruct (body z m n i j s) as [i' j' s' | p s'] eqn:Hb.
      * destruct (IH (i', j', s')) as (k & i2 & j2 & s2 & Hk & Hit & Hend).
        exists (S k), i2, j2, s2. split; [lia |].
        split; [eapply iterates_S; eauto |].
        simpl. rewrite Hg, Hb. simpl in Hend.
        destruct Hend as [H | [(-> & H) | H]]; auto.
      * exists O, i, j, s. split; [lia |]. split; [constructor |].
        right; right. split; [exact Hg |]. exists p, s'.
        split; [exact Hb |]. simpl. rewrite Hg, Hb. reflexivity.
    + exists O, i, j, s. split; [lia |]. split; [constructor |].
      left. split; [exact Hg |]. simpl. rewrite Hg. reflexivity.
Qed.

End LoopFacts.

(** ** Index ranges and projections of a log *)
Section Lists.

Lemma range_nil (lo hi : Z) : hi <= lo -> range lo hi = [].
Proof.
  intros H. unfold range. replace (Z.to_nat (hi - lo)) with O by lia.
  reflexivity.
Qed.

Lemma range_cons (lo hi : Z) :
  lo < hi -> range lo hi = lo :: range (lo + 1) hi.
Proof.
  intros H. unfold range.
  replace (Z.to_nat (hi - lo)) with (S (Z.to_nat (hi - (lo + 1)))) by lia.
  reflexivity.
Qed.

Lemma range_one (lo : Z) : range lo (lo + 1) = [lo].
Proof. rewrite range_cons by lia. rewrite range_nil by lia. reflexivity. Qed.

Lemma upto_app (lo : Z) (a b : nat) :
  upto lo (a + b) = upto lo a ++ upto (lo + Z.of_nat a) b.
Proof.
  revert lo. induction a as [| a IH]; intros lo.
  - simpl. f_equal. lia.
  - cbn [Nat.add upto app]. rewrite IH. do 3 f_equal. lia.
Qed.

Lemma range_app (lo mid hi : Z) :
  lo <= mid <= hi -> range lo hi = range lo mid ++ range mid hi.
Proof.
  intros H. unfold range.
  replace (Z.to_nat (hi - lo))
    with (Z.to_nat (mid - lo) + Z.to_nat (hi - mid))%nat by lia.
  rewrite upto_app. do 2 f_equal. lia.
Qed.

Lemma left_indices_app (l1 l2 : list Call) :
  left_indices (l1 ++ l2) = left_indices l1 ++ left_indices l2.
Proof.
  induction l1 as [| c l1 IH]; [reflexivity |].
  destruct c; simpl; rewrite IH; reflexivity.
Qed.

Lemma right_indices_app (l1 l2 : list Call) :
  right_indices (l1 ++ l2) = right_indices l1 ++ right_indices l2.
Proof.
  induction l1 as [| c l1 IH]; [reflexivity |].
  destruct c; simpl; rewrite IH; reflexivity.
Qed.

Lemma appends_app (l1 l2 : list Call) :
  appends (l1 ++ l2) = appends l1 ++ appends l2.
Proof. apply filter_app. Qed.

Lemma upto_In (x lo : Z) (len : nat) :
  In x (upto lo len) <-> lo <= x < lo + Z.of_nat len.
Proof.
  revert lo. induction len as [| len IH]; intros lo; simpl.
  - lia.
  - rewrite IH. lia.
Qed.

(** [range lo hi] has exactly the indices from [lo] to [hi - 1]. *)
Lemma range_In (x lo hi : Z) : In x (range lo hi) <-> lo <= x < hi.
Proof. unfold range. rewrite upto_In. lia. Qed.

(** [range lo hi] is strictly increasing, so it has no index twice. *)
Lemma range_increasing (lo hi : Z) : StronglySorted Z.lt (range lo hi).
Proof.
  unfold range. generalize (Z.to_nat (hi - lo)) as len. intros len.
  revert lo. induction len as [| len IH]; intros lo; simpl.
  - constructor.
  - constructor; [apply IH |].
    apply Forall_forall. intros x Hx. apply upto_In in Hx. lia.
Qed.

End Lists.

(** ** What the traced engine logs *)
Section TraceFacts.

Context {ov : OrdValues} {St : Type}.
Variable z : Zipper St.
Variables m n : Z.

(** The traced body is the body, with the calls of the iteration logged. *)
Lemma body_traced (i j : Z) (s : St) (tr : list Call) :
  body (traced z) m n i j (s, tr) =
  match body z m n i j s with
  | Next i' j' s' => Next i' j' (s', tr ++ iteration_calls z m n i j s)
  | Abort p s' => Abort p (s', tr ++ iteration_calls z m n i j s)
  end.
Proof.
  unfold body, iteration_calls. simpl.
  destruct (i >=? m); [reflexivity |].
  destruct (j >=? n); [reflexivity |].
  destruct (Compare z i j s) as [c s']. simpl.
  destruct (c =? Less); [simpl; rewrite <- app_assoc; reflexivity |].
  destruct (c =? Greater); [simpl; rewrite <- app_assoc; reflexivity |].
  destruct (c =? Equal); [simpl; rewrite <- app_assoc; reflexivity |].
  reflexivity.
Qed.

(** Tracing does not change what the engine does to the caller's data. *)
Lemma loop_erase (fuel : nat) (i j : Z) (s : St) (tr : list Call) :
  map_outcome fst (loop fuel (traced z) m n i j (s, tr)) =
  loop fuel z m n i j s.
Proof.
  revert i j s tr. induction fuel as [| fuel IH]; intros i j s tr; simpl.
  - destruct (guard m n i j); reflexivity.
  - destruct (guard m n i j); [| reflexivity].
    rewrite body_traced.
    destruct (body z m n i j s) as [i' j' s' | p s']; [apply IH | reflexivity].
Qed.

Lemma iteration_calls_in_range (i j : Z) (s : St) :
  0 <= i -> 0 <= j -> guard m n i j = true ->
  Forall (call_in_range m n) (iteration_calls z m n i j s).
Proof.
  intros Hi Hj Hg. unfold guard in Hg. unfold iteration_calls.
  destruct (Z.geb_spec i m) as [Him | Him].
  - destruct (Z.ltb_spec i m); [lia |]. destruct (Z.ltb_spec j n); [| discriminate].
    repeat constructor; lia.
  - destruct (Z.geb_spec j n) as [Hjn | Hjn]; [repeat constructor; lia |].
    constructor; [simpl; lia |].
    destruct (_ =? Less); [repeat constructor; lia |].
    destruct (_ =? Greater); [repeat constructor; lia |].
    destruct (_ =? Equal); repeat constructor; lia.
Qed.

Lemma iteration_calls_no_len (i j : Z) (s : St) :
  Forall (fun c => is_len c = false) (iteration_calls z m n i j s).
Proof.
  unfold iteration_calls.
  destruct (i >=? m); [repeat constructor |].
  destruct (j >=? n); [repeat constructor |].
  constructor; [reflexivity |].
  destruct (_ =? Less); [repeat constructor |].
  destruct (_ =? Greater); [repeat constructor |].
  destruct (_ =? Equal); repeat constructor.
Qed.

End TraceFacts.

(** The engine on [traced z] does to the caller's data what it does on
    [z]. *)
Lemma ZipWithGaps_erase {ov : OrdValues} {St : Type} (z : Zipper St)
    (fuel : nat) (s : St) (tr : list Call) :
  map_outcome fst (ZipWithGaps fuel (traced z) (s, tr)) =
  ZipWithGaps fuel z s.
Proof.
  unfold ZipWithGaps. simpl.
  destruct (LenLeft z s) as [m0 s1]. simpl.
  destruct (LenRight z s1) as [n0 s2].
  destruct ((m0 <? 0) || (n0 <? 0)); [reflexivity | apply loop_erase].
Qed.

(** ** One iteration, with cursors that fit in an [int] *)
Section StepFacts.
Import GoInt GoIntFacts.
Context {ov : OrdValues} {St : Type}.
Variable z : Zipper St.
Variables m n : Z.
Hypothesis Hm : m <= max_int.
Hypothesis Hn : n <= max_int.

Lemma guard_true_iff (i j : Z) : guard m n i j = true <-> i < m \/ j < n.
Proof.
  unfold guard. rewrite orb_true_iff, !Z.ltb_lt. reflexivity.
Qed.

Lemma guard_false_iff (i j : Z) : guard m n i j = false <-> m <= i /\ n <= j.
Proof.
  unfold guard. rewrite orb_false_iff, !Z.ltb_ge. reflexivity.
Qed.

Ltac step_done :=
  simpl; rewrite ?range_one; rewrite ?range_nil by lia;
  repeat split; solve [lia | reflexivity].

Lemma body_next_step (i j : Z) (s : St) (i' j' : Z) (s' : St) :
  0 <= i <= m -> 0 <= j <= n ->
  guard m n i j = true ->
  body z m n i j s = Next i' j' s' ->
  i <= i' <= m /\ j <= j' <= n /\
  i' - i <= 1 /\ j' - j <= 1 /\ 1 <= (i' - i) + (j' - j) /\
  left_indices (iteration_calls z m n i j s) = range i i' /\
  right_indices (iteration_calls z m n i j s) = range j j' /\
  length (appends (iteration_calls z m n i j s)) = 1%nat.
Proof.
  intros Hi Hj Hg Hb. apply guard_true_iff in Hg.
  unfold body in Hb. unfold iteration_calls.
  destruct (Z.geb_spec i m) as [Him | Him].
  - injection Hb as <- <- <-. rewrite (incr_below j n) by lia. step_done.
  - destruct (Z.geb_spec j n) as [Hjn | Hjn].
    + injection Hb as <- <- <-. rewrite (incr_below i m) by lia. step_done.
    + destruct (Compare z i j s) as [c s0]. simpl fst.
      destruct (c =? Less).
      { injection Hb as <- <- <-. rewrite (incr_below i m) by lia. step_done. }
      destruct (c =? Greater).
      { injection Hb as <- <- <-. rewrite (incr_below j n) by lia. step_done. }
      destruct (c =? Equal); [| discriminate].
      injection Hb as <- <- <-.
      rewrite (incr_below i m), (incr_below j n) by lia. step_done.
Qed.
End StepFacts.

(** ** Runs of the traced engine *)
Section TracedRuns.
Import GoInt GoIntFacts.
Context {ov : OrdValues} {St : Type}.
Variable z : Zipper St.
Variables m n : Z.
Hypothesis Hm : m <= max_int.
Hypothesis Hn : n <= max_int.

Lemma iterates_traced (k : nat) (a b : LoopState) :
  iterates (traced z) m n k a b ->
  forall i j s tr i' j' s' tr',
    a = (i, j, (s, tr)) -> b = (i', j', (s', tr')) ->
    0 <= i <= m -> 0 <= j <= n ->
    exists evs, tr' = tr ++ evs /\ segment m n k i j i' j' evs.
Proof.
  induction 1 as [a | k i0 j0 s0 i1 j1 s1 b Hg Hb _ IH];
    intros i j s tr i' j' s' tr' Ea Eb Hi Hj.
  - subst a. injection Eb as <- <- <- <-.
    exists []. rewrite app_nil_r. split; [reflexivity |].
    unfold segment. simpl. rewrite !range_nil by lia.
    repeat split; try lia; constructor.
  - injection Ea as -> -> ->. rewrite body_traced in Hb.
    destruct (body z m n i j s) as [i2 j2 s2 | p s2] eqn:Hbz; [| discriminate].
    injection Hb as <- <- <-.
    destruct (body_next_step z m n Hm Hn i j s i2 j2 s2 Hi Hj Hg Hbz)
      as (Hi2 & Hj2 & Hdi & Hdj & Hd & Hl & Hr & Hlen).
    destruct (IH i2 j2 s2 _ i' j' s' tr' eq_refl Eb) as (evs & -> & Hseg);
      [lia | lia |].
    exists (iteration_calls z m n i j s ++ evs).
    split; [rewrite app_assoc; reflexivity |].
    destruct Hseg as (Hi' & Hj' & Hk & Hl' & Hr' & Hlen' & Hrng & Hnl).
    unfold segment.
    rewrite left_indices_app, right_indices_app, appends_app, length_app.
    rewrite Hl, Hr, Hl', Hr', Hlen, Hlen'.
    rewrite <- !range_app by lia.
    repeat split; try lia; try reflexivity.
    + apply Forall_app. split; [| exact Hrng].
      apply iteration_calls_in_range; [lia | lia | exact Hg].
    + apply Forall_app. split; [| exact Hnl]. apply iteration_calls_no_len.
Qed.

End TracedRuns.

(** * The claims *)

Section Lengths.
Import GoInt GoIntFacts.
Context {ov : OrdValues} {St : Type}.

(** The engine, once the two lengths are read. *)
Lemma ZipWithGaps_reads (z : Zipper St) (s : St) {m n : Z} {s1 s2 : St}
    (fuel : nat) :
  LenLeft z s = (m, s1) -> LenRight z s1 = (n, s2) ->
  ZipWithGaps fuel z s =
  if (m <? 0) || (n <? 0) then Panicked (NegativeLengths m n) s2
  else loop fuel z m n 0 0 s2.
Proof. intros Hl Hr. unfold ZipWithGaps. rewrite Hl, Hr. reflexivity. Qed.

Lemma ZipWithGaps_traced_reads (z : Zipper St) (s : St) {m n : Z}
    {s1 s2 : St} (fuel : nat) :
  LenLeft z s = (m, s1) -> LenRight z s1 = (n, s2) ->
  ZipWithGaps fuel (traced z) (s, []) =
  if (m <? 0) || (n <? 0)
  then Panicked (NegativeLengths m n) (s2, [CLenLeft; CLenRight])
  else loop fuel (traced z) m n 0 0 (s2, [CLenLeft; CLenRight]).
Proof.
  intros Hl Hr. unfold ZipWithGaps. simpl. rewrite Hl. simpl. rewrite Hr.
  reflexivity.
Qed.

Lemma ZipWithGaps_traced_loop (z : Zipper St) (s : St) {m n : Z}
    {s1 s2 : St} (fuel : nat) :
  LenLeft z s = (m, s1) -> LenRight z s1 = (n, s2) ->
  0 <= m -> 0 <= n ->
  ZipWithGaps fuel (traced z) (s, []) =
  run fuel (traced z) m n (0, 0, (s2, [CLenLeft; CLenRight])).
Proof.
  intros Hl Hr Hm Hn. rewrite (ZipWithGaps_traced_reads z s fuel Hl Hr).
  destruct (Z.ltb_spec m 0); [lia |]. destruct (Z.ltb_spec n 0); [lia |].
  reflexivity.
Qed.

(** C4.  When [LenLeft()] or [LenRight()] is negative the call panics
    before the loop: both lengths have been read and no [Compare],
    [AddLeft], [AddRight] or [AddBoth] call has been made. *)
Theorem ZipWithGaps_negative_length (z : Zipper St) (s : St) (m n : Z)
    (s1 s2 : St) (fuel : nat) :
  LenLeft z s = (m, s1) -> LenRight z s1 = (n, s2) ->
  m < 0 \/ n < 0 ->
  ZipWithGaps fuel (traced z) (s, []) =
  Panicked (NegativeLengths m n) (s2, [CLenLeft; CLenRight]).
Proof.
  intros Hl Hr Hneg. rewrite (ZipWithGaps_traced_reads z s fuel Hl Hr).
  destruct (Z.ltb_spec m 0); [reflexivity |].
  destruct (Z.ltb_spec n 0); [reflexivity | lia].
Qed.

(** After the two reads the log has no further length call. *)
Lemma loop_no_len (z : Zipper St) (m n : Z) (fuel : nat) :
  forall i j s tr,
  exists evs,
    snd (outcome_state (loop fuel (traced z) m n i j (s, tr))) = tr ++ evs /\
    Forall (fun c => is_len c = false) evs.
Proof.
  induction fuel as [| fuel IH]; intros i j s tr; simpl.
  - exists []. rewrite app_nil_r.
    destruct (guard m n i j); split; auto.
  - destruct (guard m n i j).
    + rewrite body_traced.
      destruct (body z m n i j s) as [i' j' s' | p s'].
      * destruct (IH i' j' s' (tr ++ iteration_calls z m n i j s))
          as (evs & -> & Hevs).
        exists (iteration_calls z m n i j s ++ evs).
        rewrite app_assoc. split; [reflexivity |].
        apply Forall_app. split; [apply iteration_calls_no_len | exact Hevs].
      * exists (iteration_calls z m n i j s).
        split; [reflexivity | apply iteration_calls_no_len].
    + exists []. rewrite app_nil_r. split; auto.
Qed.

(** The loop depends on the [Zipper] through [Compare] and the three
    append methods only. *)
Lemma loop_ext (z z' : Zipper St) (m n : Z) :
  Compare z' = Compare z -> AddLeft z' = AddLeft z ->
  AddRight z' = AddRight z -> AddBoth z' = AddBoth z ->
  forall fuel i j s, loop fuel z' m n i j s = loop fuel z m n i j s.
Proof.
  intros Hc Hl Hr Hb. induction fuel as [| fuel IH]; intros i j s.
  - reflexivity.
  - simpl. unfold body. rewrite Hc, Hl, Hr, Hb.
    destruct (guard m n i j); [| reflexivity].
    fold (body z m n i j s).
    destruct (body z m n i j s); [apply IH | reflexivity].
Qed.

(** The cursors never leave [0..m] and [0..n], and [k] iterations move
    them by at least [k] and at most [2k] positions in total. *)
Lemma iterates_bounds (z : Zipper St) (m n : Z) (k : nat) (a b : LoopState) :
  m <= max_int -> n <= max_int ->
  iterates z m n k a b ->
  forall i j s i' j' s',
    a = (i, j, s) -> b = (i', j', s') ->
    0 <= i <= m -> 0 <= j <= n ->
    i <= i' <= m /\ j <= j' <= n /\
    Z.max (i' - i) (j' - j) <= Z.of_nat k <= (i' - i) + (j' - j).
Proof.
  intros Hm Hn.
  induction 1 as [a | k i0 j0 s0 i1 j1 s1 b Hg Hb _ IH];
    intros i j s i' j' s' Ea Eb Hi Hj.
  - subst a. injection Eb as <- <- <-. lia.
  - injection Ea as -> -> ->.
    destruct (body_next_step z m n Hm Hn i j s i1 j1 s1 Hi Hj Hg Hb)
      as (Hi1 & Hj1 & Hdi & Hdj & Hd & _).
    destruct (IH i1 j1 s1 i' j' s' eq_refl Eb) as (Hi' & Hj' & Hk); lia.
Qed.

(** C10.  [LenLeft()] and then [LenRight()] are called once each, before
    anything else; the pass runs on the two values read, whatever the
    [Zipper] reports afterwards; the cursors stay within these values. *)
Theorem ZipWithGaps_reads_lengths_once (z : Zipper St) (s : St) (m n : Z)
    (s1 s2 : St) :
  LenLeft z s = (m, s1) -> LenRight z s1 = (n, s2) ->
  (forall fuel, exists evs,
      snd (outcome_state (ZipWithGaps fuel (traced z) (s, []))) =
      CLenLeft :: CLenRight :: evs /\
      Forall (fun c => is_len c = false) evs) /\
  (forall z' : Zipper St,
      LenLeft z' s = (m, s1) -> LenRight z' s1 = (n, s2) ->
      Compare z' = Compare z -> AddLeft z' = AddLeft z ->
      AddRight z' = AddRight z -> AddBoth z' = AddBoth z ->
      forall fuel, ZipWithGaps fuel z' s = ZipWithGaps fuel z s) /\
  (0 <= m <= max_int -> 0 <= n <= max_int ->
   forall k i j s', iterates z m n k (0, 0, s2) (i, j, s') ->
                    0 <= i <= m /\ 0 <= j <= n).
Proof.
  intros Hl Hr. split; [| split].
  - intros fuel. rewrite (ZipWithGaps_traced_reads z s fuel Hl Hr).
    destruct ((m <? 0) || (n <? 0)).
    + exists []. split; [reflexivity | constructor].
    + destruct (loop_no_len z m n fuel 0 0 s2 [CLenLeft; CLenRight])
        as (evs & -> & Hevs).
      exists evs. split; [reflexivity | exact Hevs].
  - intros z' Hl' Hr' Hc Hal Har Hab fuel.
    rewrite (ZipWithGaps_reads z' s fuel Hl' Hr').
    rewrite (ZipWithGaps_reads z s fuel Hl Hr).
    destruct ((m <? 0) || (n <? 0)); [reflexivity |].
    apply loop_ext; assumption.
  - intros Hm Hn k i j s' Hit.
    destruct (iterates_bounds z m n _ _ _ (proj2 Hm) (proj2 Hn) Hit
                0 0 s2 i j s' eq_refl eq_refl) as (Hi & Hj & _); lia.
Qed.

End Lengths.

(** ** The five ways through the body *)
Section BodyCases.
Import GoInt GoIntFacts.
Context {ov : OrdValues} {St : Type}.
Variable w : Zipper St.
Variables m n : Z.
Hypothesis Hm : m <= max_int.
Hypothesis Hn : n <= max_int.

Lemma body_left_exhausted (i j : Z) (s : St) :
  m <= i -> 0 <= j < n ->
  body w m n i j s = Next i (j + 1) (AddRight w j s).
Proof.
  intros Hi Hj. unfold body.
  destruct (Z.geb_spec i m) as [_ | ?]; [| lia].
  rewrite (incr_below j n) by lia. reflexivity.
Qed.

Lemma body_right_exhausted (i j : Z) (s : St) :
  0 <= i < m -> n <= j ->
  body w m n i j s = Next (i + 1) j (AddLeft w i s).
Proof.
  intros Hi Hj. unfold body.
  destruct (Z.geb_spec i m) as [? | _]; [lia |].
  destruct (Z.geb_spec j n) as [_ | ?]; [| lia].
  rewrite (incr_below i m) by lia. reflexivity.
Qed.

Lemma body_compare (i j : Z) (s : St) :
  i < m -> j < n ->
  body w m n i j s =
  let (c, s') := Compare w i j s in
  if c =? Less then Next (incr i) j (AddLeft w i s')
  else if c =? Greater then Next i (incr j) (AddRight w j s')
  else if c =? Equal then Next (incr i) (incr j) (AddBoth w i j s')
  else Abort (BadCompare c) s'.
Proof.
  intros Hi Hj. unfold body.
  destruct (Z.geb_spec i m) as [? | _]; [lia |].
  destruct (Z.geb_spec j n) as [? | _]; [lia |].
  reflexivity.
Qed.

Lemma body_less (i j : Z) (s s' : St) :
  0 <= i < m -> 0 <= j < n ->
  Compare w i j s = (Less, s') ->
  body w m n i j s = Next (i + 1) j (AddLeft w i s').
Proof.
  intros Hi Hj Hc. rewrite body_compare by lia. rewrite Hc.
  rewrite Z.eqb_refl, (incr_below i m) by lia. reflexivity.
Qed.

Lemma body_greater (i j : Z) (s s' : St) :
  ord_distinct ov ->
  0 <= i < m -> 0 <= j < n ->
  Compare w i j s = (Greater, s') ->
  body w m n i j s = Next i (j + 1) (AddRight w j s').
Proof.
  intros (Hle & Hlg & Heg) Hi Hj Hc. rewrite body_compare by lia. rewrite Hc.
  destruct (Z.eqb_spec Greater Less) as [E | _]; [congruence |].
  rewrite Z.eqb_refl, (incr_below j n) by lia. reflexivity.
Qed.

Lemma body_equal (i j : Z) (s s' : St) :
  ord_distinct ov ->
  0 <= i < m -> 0 <= j < n ->
  Compare w i j s = (Equal, s') ->
  body w m n i j s = Next (i + 1) (j + 1) (AddBoth w i j s').
Proof.
  intros (Hle & Hlg & Heg) Hi Hj Hc. rewrite body_compare by lia. rewrite Hc.
  destruct (Z.eqb_spec Equal Less) as [E | _]; [congruence |].
  destruct (Z.eqb_spec Equal Greater) as [E | _]; [congruence |].
  rewrite Z.eqb_refl, (incr_below i m), (incr_below j n) by lia. reflexivity.
Qed.

(** The body panics on a comparison result that is none of the three
    constants, and only then. *)
Lemma body_invalid (i j : Z) (s s' : St) (c : Ord) :
  i < m -> j < n ->
  Compare w i j s = (c, s') -> ~ valid_ord c ->
  body w m n i j s = Abort (BadCompare c) s'.
Proof.
  intros Hi Hj Hc Hbad. rewrite body_compare by lia. rewrite Hc.
  unfold valid_ord in Hbad.
  destruct (Z.eqb_spec c Less); [tauto |].
  destruct (Z.eqb_spec c Greater); [tauto |].
  destruct (Z.eqb_spec c Equal); [tauto |].
  reflexivity.
Qed.

Lemma body_abort_inv (i j : Z) (s : St) (p : Panic) (s' : St) :
  body w m n i j s = Abort p s' ->
  i < m /\ j < n /\
  p = BadCompare (fst (Compare w i j s)) /\ s' = snd (Compare w i j s) /\
  ~ valid_ord (fst (Compare w i j s)).
Proof.
  unfold body, valid_ord.
  destruct (Z.geb_spec i m); [discriminate |].
  destruct (Z.geb_spec j n); [discriminate |].
  destruct (Compare w i j s) as [c s0]. simpl.
  destruct (Z.eqb_spec c Less); [discriminate |].
  destruct (Z.eqb_spec c Greater); [discriminate |].
  destruct (Z.eqb_spec c Equal); [discriminate |].
  intros E. injection E as <- <-. repeat split; try lia; tauto.
Qed.

End BodyCases.

(** ** Zippers that keep a log

    [traced z] and [alwaysEqualZipper (traced z)] both keep, in the second
    component of their state, a log to which every append method adds its
    own call. *)
Section Logging.
Import GoInt GoIntFacts.
Context {ov : OrdValues} {St : Type}.
Variable w : Zipper (St * list Call).
Variables m n : Z.
Hypothesis Hm : m <= max_int.
Hypothesis Hn : n <= max_int.

(** Left side exhausted: the remaining right indices are appended one per
    iteration, in ascending order, and nothing else is called. *)
Lemma drain_right :
  (forall j st, snd (AddRight w j st) = snd st ++ [CAddRight j]) ->
  forall (d : nat) (i j : Z) (st : St * list Call),
    m <= i -> 0 <= j <= n -> d = Z.to_nat (n - j) ->
    exists st',
      iterates w m n d (i, j, st) (i, n, st') /\
      snd st' = snd st ++ map CAddRight (range j n).
Proof.
  intros Hlog. induction d as [| d IH]; intros i j st Hi Hj Hd.
  - assert (j = n) as -> by lia. exists st. split; [constructor |].
    rewrite range_nil by lia. simpl. rewrite app_nil_r. reflexivity.
  - destruct (IH i (j + 1) (AddRight w j st)) as (st' & Hit & Hst');
      [lia | lia | lia |].
    exists st'. split.
    + eapply iterates_S; [| | exact Hit].
      * apply guard_true_iff. lia.
      * apply body_left_exhausted; [exact Hn | lia | lia].
    + rewrite Hst', Hlog, <- app_assoc, (range_cons j n) by lia. reflexivity.
Qed.

(** Right side exhausted: symmetric. *)
Lemma drain_left :
  (forall i st, snd (AddLeft w i st) = snd st ++ [CAddLeft i]) ->
  forall (d : nat) (i j : Z) (st : St * list Call),
    0 <= i <= m -> n <= j -> d = Z.to_nat (m - i) ->
    exists st',
      iterates w m n d (i, j, st) (m, j, st') /\
      snd st' = snd st ++ map CAddLeft (range i m).
Proof.
  intros Hlog. induction d as [| d IH]; intros i j st Hi Hj Hd.
  - assert (i = m) as -> by lia. exists st. split; [constructor |].
    rewrite range_nil by lia. simpl. rewrite app_nil_r. reflexivity.
  - destruct (IH (i + 1) j (AddLeft w i st)) as (st' & Hit & Hst');
      [lia | lia | lia |].
    exists st'. split.
    + eapply iterates_S; [| | exact Hit].
      * apply guard_true_iff. lia.
      * apply body_right_exhausted; [exact Hm | lia | lia].
    + rewrite Hst', Hlog, <- app_assoc, (range_cons i m) by lia. reflexivity.
Qed.

(** A comparison that always answers [Equal] pairs the two sides
    position by position up to the shorter length.  [cmp_log i j] is what
    [Compare(i, j)] adds to the log. *)
Lemma pair_phase (cmp_log : Z -> Z -> list Call) :
  ord_distinct ov ->
  (forall i j st, fst (Compare w i j st) = Equal /\
                  snd (snd (Compare w i j st)) = snd st ++ cmp_log i j) ->
  (forall i j st, snd (AddBoth w i j st) = snd st ++ [CAddBoth i j]) ->
  forall (d : nat) (i : Z) (st : St * list Call),
    0 <= i <= Z.min m n -> d = Z.to_nat (Z.min m n - i) ->
    exists st',
      iterates w m n d (i, i, st) (Z.min m n, Z.min m n, st') /\
      snd st' =
      snd st ++
      flat_map (fun k => cmp_log k k ++ [CAddBoth k k]) (range i (Z.min m n)).
Proof.
  intros Hdis Hcmp Hlog. induction d as [| d IH]; intros i st Hi Hd.
  - assert (i = Z.min m n) as -> by lia. exists st. split; [constructor |].
    rewrite range_nil by lia. simpl. rewrite app_nil_r. reflexivity.
  - destruct (Compare w i i st) as [c st1] eqn:Hc.
    destruct (Hcmp i i st) as (Hfst & Hsnd). rewrite Hc in Hfst, Hsnd.
    simpl in Hfst, Hsnd. subst c.
    destruct (IH (i + 1) (AddBoth w i i st1)) as (st' & Hit & Hst');
      [lia | lia |].
    exists st'. split.
    + eapply iterates_S; [| | exact Hit].
      * apply guard_true_iff. lia.
      * apply body_equal; [exact Hm | exact Hn | exact Hdis | lia | lia |].
        exact Hc.
    + rewrite Hst', Hlog, Hsnd, (range_cons i (Z.min m n)) by lia.
      simpl. rewrite <- !app_assoc. reflexivity.
Qed.

(** The whole pass under an always-[Equal] comparison. *)
Lemma always_equal_run (cmp_log : Z -> Z -> list Call) :
  ord_distinct ov ->
  (forall i j st, fst (Compare w i j st) = Equal /\
                  snd (snd (Compare w i j st)) = snd st ++ cmp_log i j) ->
  (forall i st, snd (AddLeft w i st) = snd st ++ [CAddLeft i]) ->
  (forall j st, snd (AddRight w j st) = snd st ++ [CAddRight j]) ->
  (forall i j st, snd (AddBoth w i j st) = snd st ++ [CAddBoth i j]) ->
  0 <= m -> 0 <= n ->
  forall st : St * list Call,
  exists st',
    iterates w m n (Z.to_nat (Z.max m n)) (0, 0, st) (m, n, st') /\
    snd st' =
    snd st ++
    flat_map (fun k => cmp_log k k ++ [CAddBoth k k]) (range 0 (Z.min m n)) ++
    (if n <? m then map CAddLeft (range n m) else map CAddRight (range m n)).
Proof.
  intros Hdis Hcmp Hleft Hright Hboth Hm0 Hn0 st.
  destruct (pair_phase cmp_log Hdis Hcmp Hboth
              (Z.to_nat (Z.min m n - 0)) 0 st) as (st1 & Hit1 & Hst1);
    [lia | reflexivity |].
  destruct (Z.ltb_spec n m) as [Hlt | Hge].
  - replace (Z.min m n) with n in Hit1 by lia.
    destruct (drain_left Hleft (Z.to_nat (m - n)) n n st1)
      as (st2 & Hit2 & Hst2); [lia | lia | reflexivity |].
    exists st2. split.
    + replace (Z.to_nat (Z.max m n))
        with (Z.to_nat (n - 0) + Z.to_nat (m - n))%nat by lia.
      eapply iterates_app; eassumption.
    + rewrite Hst2, Hst1, <- app_assoc. reflexivity.
  - replace (Z.min m n) with m in Hit1 by lia.
    destruct (drain_right Hright (Z.to_nat (n - m)) m m st1)
      as (st2 & Hit2 & Hst2); [lia | lia | reflexivity |].
    exists st2. split.
    + replace (Z.to_nat (Z.max m n))
        with (Z.to_nat (m - 0) + Z.to_nat (n - m))%nat by lia.
      eapply iterates_app; eassumption.
    + rewrite Hst2, Hst1, <- app_assoc. reflexivity.
Qed.

End Logging.

Section Exhaustion.
Import GoInt GoIntFacts.
Context {ov : OrdValues} {St : Type}.

Lemma traced_logs_left (z : Zipper St) (i : Z) (st : St * list Call) :
  snd (AddLeft (traced z) i st) = snd st ++ [CAddLeft i].
Proof. reflexivity. Qed.

Lemma traced_logs_right (z : Zipper St) (j : Z) (st : St * list Call) :
  snd (AddRight (traced z) j st) = snd st ++ [CAddRight j].
Proof. reflexivity. Qed.

Lemma traced_logs_both (z : Zipper St) (i j : Z) (st : St * list Call) :
  snd (AddBoth (traced z) i j st) = snd st ++ [CAddBoth i j].
Proof. reflexivity. Qed.

(** A run that has made [k] iterations and then needs [d] more to leave
    the loop returns with any fuel of at least [k + d]. *)
Lemma ZipWithGaps_traced_returns (z : Zipper St) (s : St) (m n : Z)
    (s1 s2 : St) (k d : nat) (a : LoopState) (i j : Z)
    (st : St * list Call) :
  LenLeft z s = (m, s1) -> LenRight z s1 = (n, s2) ->
  0 <= m -> 0 <= n ->
  iterates (traced z) m n k (0, 0, (s2, [CLenLeft; CLenRight])) a ->
  iterates (traced z) m n d a (i, j, st) ->
  guard m n i j = false ->
  forall fuel, (k + d <= fuel)%nat ->
               ZipWithGaps fuel (traced z) (s, []) = Returned st.
Proof.
  intros Hl Hr Hm Hn Hk Hd Hg fuel Hfuel.
  rewrite (ZipWithGaps_traced_loop z s fuel Hl Hr Hm Hn).
  replace fuel with (k + (d + (fuel - k - d)))%nat by lia.
  rewrite (run_iterates _ _ _ _ _ _ Hk), (run_iterates _ _ _ _ _ _ Hd).
  apply loop_exit. exact Hg.
Qed.

(** C6.  Once one side is exhausted while the other is not, the engine
    makes no further [Compare] call: it appends the remaining indices of
    the other side, one per iteration and in ascending order, and
    returns. *)
Theorem ZipWithGaps_drains (z : Zipper St) (s : St) (m n : Z) (s1 s2 : St)
    (k : nat) (i j : Z) (s' : St) (tr : list Call) :
  LenLeft z s = (m, s1) -> LenRight z s1 = (n, s2) ->
  0 <= m <= max_int -> 0 <= n <= max_int ->
  iterates (traced z) m n k (0, 0, (s2, [CLenLeft; CLenRight]))
           (i, j, (s', tr)) ->
  (m <= i -> j < n ->
   exists s'',
     iterates (traced z) m n (Z.to_nat (n - j)) (i, j, (s', tr))
              (i, n, (s'', tr ++ map CAddRight (range j n))) /\
     forall fuel, (k + Z.to_nat (n - j) <= fuel)%nat ->
       ZipWithGaps fuel (traced z) (s, []) =
       Returned (s'', tr ++ map CAddRight (range j n))) /\
  (n <= j -> i < m ->
   exists s'',
     iterates (traced z) m n (Z.to_nat (m - i)) (i, j, (s', tr))
              (m, j, (s'', tr ++ map CAddLeft (range i m))) /\
     forall fuel, (k + Z.to_nat (m - i) <= fuel)%nat ->
       ZipWithGaps fuel (traced z) (s, []) =
       Returned (s'', tr ++ map CAddLeft (range i m))).
Proof.
  intros Hl Hr Hm Hn Hit.
  destruct (iterates_bounds (traced z) m n _ _ _ (proj2 Hm) (proj2 Hn) Hit
              0 0 _ i j _ eq_refl eq_refl) as (Hi & Hj & _); [lia | lia |].
  split.
  - intros Him Hjn.
    destruct (drain_right (traced z) m n (proj2 Hn) (traced_logs_right z)
                (Z.to_nat (n - j)) i j (s', tr))
      as ([s'' tr''] & Hd & Htr); [lia | lia | reflexivity |].
    simpl in Htr. subst tr''. exists s''. split; [exact Hd |].
    intros fuel Hfuel.
    eapply ZipWithGaps_traced_returns;
      [exact Hl | exact Hr | lia | lia | exact Hit | exact Hd
      | apply guard_false_iff; lia | exact Hfuel].
  - intros Hjn Him.
    destruct (drain_left (traced z) m n (proj2 Hm) (traced_logs_left z)
                (Z.to_nat (m - i)) i j (s', tr))
      as ([s'' tr''] & Hd & Htr); [lia | lia | reflexivity |].
    simpl in Htr. subst tr''. exists s''. split; [exact Hd |].
    intros fuel Hfuel.
    eapply ZipWithGaps_traced_returns;
      [exact Hl | exact Hr | lia | lia | exact Hit | exact Hd
      | apply guard_false_iff; lia | exact Hfuel].
Qed.

End Exhaustion.

Section Dispatch.
Import GoInt GoIntFacts.
Context {ov : OrdValues} {St : Type}.

(** C1.  Whenever a run of [ZipWithGaps] is at cursors that are both in
    range, after [k] iterations with log [tr], the next iteration
    evaluates [Compare(i, j)] once and dispatches on its result: on
    [Less] it calls [AddLeft(i)] once and the run goes on from
    [(i + 1, j)]; on [Greater] it calls [AddRight(j)] once and the run
    goes on from [(i, j + 1)]; on [Equal] it calls [AddBoth(i, j)] once
    and the run goes on from [(i + 1, j + 1)]. *)
Theorem ZipWithGaps_dispatch (z : Zipper St) (s0 : St) (m n : Z)
    (s1 s2 : St) (k : nat) (i j : Z) (s : St) (tr : list Call) (c : Ord)
    (s' : St) :
  ord_distinct ov ->
  LenLeft z s0 = (m, s1) -> LenRight z s1 = (n, s2) ->
  0 <= m <= max_int -> 0 <= n <= max_int ->
  iterates (traced z) m n k (0, 0, (s2, [CLenLeft; CLenRight]))
           (i, j, (s, tr)) ->
  i < m -> j < n ->
  Compare z i j s = (c, s') ->
  ZipWithGaps k (traced z) (s0, []) = OutOfFuel (s, tr) /\
  (c = Less ->
   body (traced z) m n i j (s, tr) =
   Next (i + 1) j (AddLeft z i s', tr ++ [CCompare i j; CAddLeft i]) /\
   forall fuel,
     ZipWithGaps (S k + fuel) (traced z) (s0, []) =
     run fuel (traced z) m n
         (i + 1, j, (AddLeft z i s', tr ++ [CCompare i j; CAddLeft i]))) /\
  (c = Greater ->
   body (traced z) m n i j (s, tr) =
   Next i (j + 1) (AddRight z j s', tr ++ [CCompare i j; CAddRight j]) /\
   forall fuel,
     ZipWithGaps (S k + fuel) (traced z) (s0, []) =
     run fuel (traced z) m n
         (i, j + 1, (AddRight z j s', tr ++ [CCompare i j; CAddRight j]))) /\
  (c = Equal ->
   body (traced z) m n i j (s, tr) =
   Next (i + 1) (j + 1)
        (AddBoth z i j s', tr ++ [CCompare i j; CAddBoth i j]) /\
   forall fuel,
     ZipWithGaps (S k + fuel) (traced z) (s0, []) =
     run fuel (traced z) m n
         (i + 1, j + 1,
          (AddBoth z i j s', tr ++ [CCompare i j; CAddBoth i j]))).
Proof.
  intros Hdis Hl Hr Hm Hn Hit Hi Hj Hc.
  destruct (iterates_bounds (traced z) m n _ _ _ (proj2 Hm) (proj2 Hn) Hit
              0 0 _ i j _ eq_refl eq_refl) as (Hi0 & Hj0 & _); [lia | lia |].
  assert (Hg : guard m n i j = true) by (apply guard_true_iff; lia).
  assert (Hgo : forall i' j' st fuel,
             body (traced z) m n i j (s, tr) = Next i' j' st ->
             ZipWithGaps (S k + fuel) (traced z) (s0, []) =
             run fuel (traced z) m n (i', j', st)).
  { intros i' j' st fuel Hb.
    rewrite (ZipWithGaps_traced_loop z s0 (S k + fuel) Hl Hr) by lia.
    replace (S k + fuel)%nat with (k + S fuel)%nat by lia.
    rewrite (run_iterates _ _ _ _ _ _ Hit).
    apply loop_next; assumption. }
  assert (Hct : forall c0, c = c0 ->
             Compare (traced z) i j (s, tr) =
             (c0, (s', tr ++ [CCompare i j]))).
  { intros c0 <-. simpl. rewrite Hc. reflexivity. }
  split; [| split; [| split]].
  - rewrite (ZipWithGaps_traced_loop z s0 k Hl Hr) by lia.
    replace k with (k + 0)%nat at 1 by lia.
    rewrite (run_iterates _ _ _ _ _ _ Hit). simpl. rewrite Hg. reflexivity.
  - intros E.
    assert (Hb : body (traced z) m n i j (s, tr) =
                 Next (i + 1) j
                      (AddLeft z i s', tr ++ [CCompare i j; CAddLeft i])).
    { rewrite (body_less (traced z) m n (proj2 Hm) i j _ _
                 ltac:(lia) ltac:(lia) (Hct Less E)).
      simpl. rewrite <- app_assoc. reflexivity. }
    split; [exact Hb |]. intros fuel. apply Hgo. exact Hb.
  - intros E.
    assert (Hb : body (traced z) m n i j (s, tr) =
                 Next i (j + 1)
                      (AddRight z j s', tr ++ [CCompare i j; CAddRight j])).
    { rewrite (body_greater (traced z) m n (proj2 Hn) i j _ _ Hdis
                 ltac:(lia) ltac:(lia) (Hct Greater E)).
      simpl. rewrite <- app_assoc. reflexivity. }
    split; [exact Hb |]. intros fuel. apply Hgo. exact Hb.
  - intros E.
    assert (Hb : body (traced z) m n i j (s, tr) =
                 Next (i + 1) (j + 1)
                      (AddBoth z i j s', tr ++ [CCompare i j; CAddBoth i j])).
    { rewrite (body_equal (traced z) m n (proj2 Hm) (proj2 Hn) i j _ _ Hdis
                 ltac:(lia) ltac:(lia) (Hct Equal E)).
      simpl. rewrite <- app_assoc. reflexivity. }
    split; [exact Hb |]. intros fuel. apply Hgo. exact Hb.
Qed.

End Dispatch.

Section ZipSpec.
Import GoInt GoIntFacts.
Context {ov : OrdValues}.

Lemma flat_map_one {A : Type} (f : A -> Call) (l : list A) :
  flat_map (fun k => [] ++ [f k]) l = map f l.
Proof.
  induction l as [| a l IH]; [reflexivity |].
  simpl. now f_equal.
Qed.

Lemma appends_compare_both (l : list Z) :
  appends (flat_map (fun k => [CCompare k k] ++ [CAddBoth k k]) l) =
  map (fun k => CAddBoth k k) l.
Proof.
  induction l as [| a l IH]; [reflexivity |].
  simpl. now f_equal.
Qed.

Lemma appends_add_left (l : list Z) : appends (map CAddLeft l) = map CAddLeft l.
Proof. induction l as [| a l IH]; simpl; [| rewrite IH]; reflexivity. Qed.

Lemma appends_add_right (l : list Z) :
  appends (map CAddRight l) = map CAddRight l.
Proof. induction l as [| a l IH]; simpl; [| rewrite IH]; reflexivity. Qed.

(** C2.  [Zip] calls [AddBoth(i, i)] for [i] from [0] up to the shorter
    length, then appends the tail of the longer side one index at a time,
    and calls nothing else after the two length reads; [ZipWithGaps] on
    any [Zipper] of the same lengths whose comparison always answers
    [Equal] makes the same append calls. *)
Theorem Zip_calls (St : Type) (z : Zipper St) (s : St) (m n : Z)
    (s1 s2 : St) :
  ord_distinct ov ->
  LenLeft z s = (m, s1) -> LenRight z s1 = (n, s2) ->
  0 <= m <= max_int -> 0 <= n <= max_int ->
  (exists s',
     forall fuel, (Z.to_nat (Z.max m n) <= fuel)%nat ->
       Zip fuel (traced z) (s, []) =
       Returned (s', [CLenLeft; CLenRight] ++ zip_calls m n)) /\
  (forall (T : Type) (z' : Zipper T) (t t1 t2 : T),
     LenLeft z' t = (m, t1) -> LenRight z' t1 = (n, t2) ->
     (forall i j u, fst (Compare z' i j u) = Equal) ->
     exists t' tr,
       appends tr = zip_calls m n /\
       forall fuel, (Z.to_nat (Z.max m n) <= fuel)%nat ->
         ZipWithGaps fuel (traced z') (t, []) = Returned (t', tr)).
Proof.
  intros Hdis Hl Hr Hm Hn. split.
  - destruct (always_equal_run (alwaysEqualZipper (traced z)) m n
                (proj2 Hm) (proj2 Hn) (fun _ _ => []) Hdis)
      with (st := (s2, [CLenLeft; CLenRight])) as ([s' tr'] & Hit & Htr);
      try (intros; reflexivity); try lia.
    { intros i j st. simpl. rewrite app_nil_r. split; reflexivity. }
    simpl snd in Htr. rewrite flat_map_one in Htr. fold (zip_calls m n) in Htr.
    subst tr'. exists s'. intros fuel Hfuel.
    unfold Zip.
    rewrite (@ZipWithGaps_reads _ _ (alwaysEqualZipper (traced z)) (s, [])
               m n (s1, [CLenLeft]) (s2, [CLenLeft; CLenRight]) fuel).
    + destruct (Z.ltb_spec m 0); [lia |]. destruct (Z.ltb_spec n 0); [lia |].
      simpl orb. cbv iota.
      replace fuel with (Z.to_nat (Z.max m n) + (fuel - Z.to_nat (Z.max m n)))%nat
        by lia.
      change (loop ?f ?w m n 0 0 ?st) with (run f w m n (0, 0, st)).
      rewrite (run_iterates _ _ _ _ _ _ Hit).
      apply loop_exit. apply guard_false_iff. lia.
    + simpl. rewrite Hl. reflexivity.
    + simpl. rewrite Hr. reflexivity.
  - intros T z' t t1 t2 Hl' Hr' Heq.
    destruct (always_equal_run (traced z') m n
                (proj2 Hm) (proj2 Hn) (fun i j => [CCompare i j]) Hdis)
      with (st := (t2, [CLenLeft; CLenRight])) as ([t' tr'] & Hit & Htr);
      try (intros; reflexivity); try lia.
    { intros i j st. simpl. specialize (Heq i j (fst st)).
      destruct (Compare z' i j (fst st)) as [c u]. simpl in *.
      split; [exact Heq | reflexivity]. }
    exists t', tr'. split.
    + simpl snd in Htr. rewrite Htr. unfold zip_calls.
      rewrite !appends_app, appends_compare_both.
      destruct (n <? m); [rewrite appends_add_left | rewrite appends_add_right];
        reflexivity.
    + intros fuel Hfuel.
      eapply ZipWithGaps_traced_returns with (k := O);
        [exact Hl' | exact Hr' | lia | lia | constructor | exact Hit
        | apply guard_false_iff; lia | simpl; exact Hfuel].
Qed.

End ZipSpec.

Section CompleteRuns.
Import GoInt GoIntFacts.
Context {ov : OrdValues} {St : Type}.

(** With a comparison that answers one of the three constants, the loop
    runs from any cursors within bounds to the end of both sides. *)
Lemma traced_run_complete (z : Zipper St) (m n : Z) :
  m <= max_int -> n <= max_int ->
  (forall i j u, valid_ord (fst (Compare z i j u))) ->
  forall i j s tr,
    0 <= i <= m -> 0 <= j <= n ->
    exists k s' evs,
      iterates (traced z) m n k (i, j, (s, tr)) (m, n, (s', tr ++ evs)) /\
      segment m n k i j m n evs.
Proof.
  intros Hm Hn Hvalid i j s tr Hi Hj.
  destruct (run_decompose (traced z) m n
              (Z.to_nat ((m - i) + (n - j))) (i, j, (s, tr)))
    as (k & i' & j' & [s' tr'] & Hk & Hit & Hend).
  destruct (iterates_traced z m n Hm Hn k _ _ Hit
              i j s tr i' j' s' tr' eq_refl eq_refl Hi Hj)
    as (evs & -> & Hseg).
  pose proof Hseg as (Hi' & Hj' & Hcount & _).
  destruct Hend as [(Hg & _) | [(Hkf & Hg & _) | (Hg & p & st & Hb & _)]].
  - apply guard_false_iff in Hg.
    assert (i' = m) by lia. assert (j' = n) by lia. subst i' j'.
    exists k, s', evs. split; assumption.
  - apply guard_true_iff in Hg. lia.
  - rewrite body_traced in Hb.
    destruct (body z m n i' j' s') as [? ? ? | p0 s0] eqn:E; [discriminate |].
    apply body_abort_inv in E. destruct E as (_ & _ & _ & _ & Hbad).
    exfalso. apply Hbad, Hvalid.
Qed.

(** C3.  With non-negative lengths and a comparison that answers only
    [Less], [Equal] or [Greater], the left indices passed to [AddLeft] and
    [AddBoth] are [0, 1, ..., LenLeft()-1] in this order, each once, and
    the right indices passed to [AddRight] and [AddBoth] are
    [0, 1, ..., LenRight()-1] in this order, each once. *)
Theorem ZipWithGaps_visits_each_index_once (z : Zipper St) (s : St)
    (m n : Z) (s1 s2 : St) :
  (forall i j u, valid_ord (fst (Compare z i j u))) ->
  LenLeft z s = (m, s1) -> LenRight z s1 = (n, s2) ->
  0 <= m <= max_int -> 0 <= n <= max_int ->
  exists s' tr,
    (forall fuel, (Z.to_nat (m + n) <= fuel)%nat ->
       ZipWithGaps fuel (traced z) (s, []) = Returned (s', tr)) /\
    left_indices tr = range 0 m /\
    right_indices tr = range 0 n.
Proof.
  intros Hvalid Hl Hr Hm Hn.
  destruct (traced_run_complete z m n (proj2 Hm) (proj2 Hn) Hvalid
              0 0 s2 [CLenLeft; CLenRight])
    as (k & s' & evs & Hit & Hseg); [lia | lia |].
  destruct Hseg as (_ & _ & Hk & Hleft & Hright & _).
  exists s', ([CLenLeft; CLenRight] ++ evs). split; [| split].
  - intros fuel Hfuel.
    eapply ZipWithGaps_traced_returns with (k := O);
      [exact Hl | exact Hr | lia | lia | constructor | exact Hit
      | apply guard_false_iff; lia | simpl; lia].
  - exact Hleft.
  - exact Hright.
Qed.

(** C7.  With non-negative lengths and a comparison that answers only
    [Less], [Equal] or [Greater], the loop leaves after a number [k] of
    iterations, with both cursors at their lengths; [k] is the number of
    append calls and lies between [max(m, n)] and [m + n]. *)
Theorem ZipWithGaps_terminates (z : Zipper St) (s : St) (m n : Z)
    (s1 s2 : St) :
  (forall i j u, valid_ord (fst (Compare z i j u))) ->
  LenLeft z s = (m, s1) -> LenRight z s1 = (n, s2) ->
  0 <= m <= max_int -> 0 <= n <= max_int ->
  exists k s' tr,
    iterates (traced z) m n k (0, 0, (s2, [CLenLeft; CLenRight]))
             (m, n, (s', tr)) /\
    (forall i j, 0 <= i <= m -> 0 <= j <= n ->
                 (guard m n i j = false <-> i = m /\ j = n)) /\
    (forall fuel, (k <= fuel)%nat ->
       ZipWithGaps fuel (traced z) (s, []) = Returned (s', tr)) /\
    (forall fuel, (fuel < k)%nat ->
       exists st, ZipWithGaps fuel (traced z) (s, []) = OutOfFuel st) /\
    length (appends tr) = k /\
    Z.max m n <= Z.of_nat k <= m + n.
Proof.
  intros Hvalid Hl Hr Hm Hn.
  destruct (traced_run_complete z m n (proj2 Hm) (proj2 Hn) Hvalid
              0 0 s2 [CLenLeft; CLenRight])
    as (k & s' & evs & Hit & Hseg); [lia | lia |].
  destruct Hseg as (_ & _ & Hk & _ & _ & Hlen & _).
  exists k, s', ([CLenLeft; CLenRight] ++ evs).
  split; [exact Hit |]. split; [| split; [| split; [| split]]].
  - intros i j Hi Hj. rewrite guard_false_iff. lia.
  - intros fuel Hfuel.
    eapply ZipWithGaps_traced_returns with (k := O);
      [exact Hl | exact Hr | lia | lia | constructor | exact Hit
      | apply guard_false_iff; lia | simpl; lia].
  - intros fuel Hfuel.
    rewrite (ZipWithGaps_traced_loop z s fuel Hl Hr) by lia.
    exact (run_short _ _ _ _ _ _ Hit fuel Hfuel).
  - exact Hlen.
  - lia.
Qed.

(** C9.  With non-negative lengths every index the engine passes to
    [Compare], [AddLeft], [AddRight] or [AddBoth] is in range, whatever
    the comparison answers and however the call ends; with fuel [m + n]
    the model does not stop short. *)
Theorem ZipWithGaps_indices_in_range (z : Zipper St) (s : St) (m n : Z)
    (s1 s2 : St) (fuel : nat) :
  LenLeft z s = (m, s1) -> LenRight z s1 = (n, s2) ->
  0 <= m <= max_int -> 0 <= n <= max_int ->
  Forall (call_in_range m n)
         (snd (outcome_state (ZipWithGaps fuel (traced z) (s, [])))) /\
  ((Z.to_nat (m + n) <= fuel)%nat ->
   forall st, ZipWithGaps fuel (traced z) (s, []) <> OutOfFuel st).
Proof.
  intros Hl Hr Hm Hn.
  rewrite (ZipWithGaps_traced_loop z s fuel Hl Hr) by lia.
  destruct (run_decompose (traced z) m n fuel
              (0, 0, (s2, [CLenLeft; CLenRight])))
    as (k & i' & j' & [s' tr'] & Hk & Hit & Hend).
  destruct (iterates_traced z m n (proj2 Hm) (proj2 Hn) k _ _ Hit
              0 0 s2 [CLenLeft; CLenRight] i' j' s' tr' eq_refl eq_refl)
    as (evs & -> & Hseg); [lia | lia |].
  destruct Hseg as (Hi' & Hj' & Hcount & _ & _ & _ & Hrange & _).
  assert (Hlog : Forall (call_in_range m n) ([CLenLeft; CLenRight] ++ evs)).
  { apply Forall_app. split; [repeat constructor | exact Hrange]. }
  destruct Hend as [(Hg & ->) | [(Hkf & Hg & ->) | (Hg & p & st & Hb & ->)]].
  - split; [exact Hlog | discriminate].
  - split; [exact Hlog |]. apply guard_true_iff in Hg. lia.
  - split; [| discriminate]. rewrite body_traced in Hb.
    destruct (body z m n i' j' s') as [? ? ? | p0 s0]; [discriminate |].
    injection Hb as <- <-.
    change (Forall (call_in_range m n)
              (([CLenLeft; CLenRight] ++ evs) ++
               iteration_calls z m n i' j' s')).
    apply Forall_app. split; [exact Hlog |].
    apply iteration_calls_in_range; [lia | lia | exact Hg].
Qed.

(** C5.  When the scan reaches an in-range pair [(i, j)] at which
    [Compare] answers none of the three constants, the call panics there:
    the log is the log on reaching the pair, which has one append call
    for each earlier iteration, followed by the [Compare(i, j)] call and
    no append call for the pair. *)
Theorem ZipWithGaps_malformed_compare (z : Zipper St) (s : St) (m n : Z)
    (s1 s2 : St) (k : nat) (i j : Z) (s' : St) (tr : list Call) (c : Ord)
    (s'' : St) :
  LenLeft z s = (m, s1) -> LenRight z s1 = (n, s2) ->
  0 <= m <= max_int -> 0 <= n <= max_int ->
  iterates (traced z) m n k (0, 0, (s2, [CLenLeft; CLenRight]))
           (i, j, (s', tr)) ->
  i < m -> j < n ->
  Compare z i j s' = (c, s'') -> ~ valid_ord c ->
  (forall fuel, (k < fuel)%nat ->
     ZipWithGaps fuel (traced z) (s, []) =
     Panicked (BadCompare c) (s'', tr ++ [CCompare i j])) /\
  appends (tr ++ [CCompare i j]) = appends tr /\
  length (appends tr) = k.
Proof.
  intros Hl Hr Hm Hn Hit Hi Hj Hc Hbad. split; [| split].
  - intros fuel Hfuel.
    rewrite (ZipWithGaps_traced_loop z s fuel Hl Hr) by lia.
    replace fuel with (k + S (fuel - k - 1))%nat by lia.
    rewrite (run_iterates _ _ _ _ _ _ Hit).
    apply loop_abort; [apply guard_true_iff; lia |].
    apply body_invalid; [exact Hi | exact Hj | | exact Hbad].
    simpl. rewrite Hc. reflexivity.
  - rewrite appends_app. simpl. apply app_nil_r.
  - destruct (iterates_traced z m n (proj2 Hm) (proj2 Hn) k _ _ Hit
                0 0 s2 [CLenLeft; CLenRight] i j s' tr eq_refl eq_refl)
      as (evs & -> & Hseg); [lia | lia |].
    destruct Hseg as (_ & _ & _ & _ & _ & Hlen & _). exact Hlen.
Qed.

End CompleteRuns.

(** ** The concrete scenario *)

(** A bound on a literal length. *)
Ltac small_int := rewrite GoIntFacts.max_int_val; lia.

(** One iteration of a concrete run, by the body lemma [lem]. *)
Ltac iterate_with lem :=
  eapply iterates_S;
  [ reflexivity
  | apply lem;
    first [small_int | lia | assumption | exact go_ord_distinct | reflexivity]
  | ].

Section Scenario.
Import GoInt GoIntFacts.
Context {ov : OrdValues}.

(** C8.  On left = [1,3,5] and right = [2,3,4] under numeric ordering the
    append calls are [AddLeft(0)], [AddRight(0)], [AddBoth(1,1)],
    [AddRight(2)], [AddLeft(2)], in this order. *)
Theorem ZipWithGaps_scenario :
  ord_distinct ov ->
  exists tr,
    (forall fuel, (5 <= fuel)%nat ->
       ZipWithGaps fuel (traced (sliceZipper [1; 3; 5] [2; 3; 4])) ([], []) =
       Returned ([OnlyLeft 1; OnlyRight 2; Both 3 3; OnlyRight 4; OnlyLeft 5],
                 tr)) /\
    appends tr =
    [CAddLeft 0; CAddRight 0; CAddBoth 1 1; CAddRight 2; CAddLeft 2].
Proof.
  intros Hdis.
  exists [CLenLeft; CLenRight; CCompare 0 0; CAddLeft 0; CCompare 1 0;
          CAddRight 0; CCompare 1 1; CAddBoth 1 1; CCompare 2 2; CAddRight 2;
          CAddLeft 2].
  split; [| reflexivity].
  intros fuel Hfuel.
  refine (ZipWithGaps_traced_returns (sliceZipper [1; 3; 5] [2; 3; 4]) []
            3 3 [] [] O 5 (0, 0, ([], [CLenLeft; CLenRight])) 3 3 _
            eq_refl eq_refl _ _ (iterates_O _ _ _ _) _ eq_refl fuel Hfuel);
    [lia | lia |].
  iterate_with (@body_less ov).
  iterate_with (@body_greater ov).
  iterate_with (@body_equal ov).
  iterate_with (@body_greater ov).
  iterate_with (@body_right_exhausted ov).
  apply iterates_O.
Qed.

End Scenario.


(** * Concrete runs

    The theorems above at concrete adapters, with the constants of
    [go_ord]. *)
Section ConcreteRuns.
Import GoInt.

Local Existing Instance go_ord.

Lemma sliceZipper_valid (left right : list Z) :
  forall i j u, valid_ord (fst (Compare (sliceZipper left right) i j u)).
Proof.
  intros i j u. unfold valid_ord. simpl.
  destruct (_ <? _); [auto |]. destruct (_ <? _); auto.
Qed.

Example scenario_run :
  ZipWithGaps 5 (traced (sliceZipper [1; 3; 5] [2; 3; 4])) ([], []) =
  Returned ([OnlyLeft 1; OnlyRight 2; Both 3 3; OnlyRight 4; OnlyLeft 5],
            [CLenLeft; CLenRight; CCompare 0 0; CAddLeft 0; CCompare 1 0;
             CAddRight 0; CCompare 1 1; CAddBoth 1 1; CCompare 2 2;
             CAddRight 2; CAddLeft 2]).
Proof. vm_compute. reflexivity. Qed.

Example scenario_short_of_fuel :
  ZipWithGaps 4 (traced (sliceZipper [1; 3; 5] [2; 3; 4])) ([], []) =
  OutOfFuel ([OnlyLeft 1; OnlyRight 2; Both 3 3; OnlyRight 4],
             [CLenLeft; CLenRight; CCompare 0 0; CAddLeft 0; CCompare 1 0;
              CAddRight 0; CCompare 1 1; CAddBoth 1 1; CCompare 2 2;
              CAddRight 2]).
Proof. vm_compute. reflexivity. Qed.

Example zip_run :
  Zip 3 (traced (sliceZipper [1; 3] [2; 3; 4])) ([], []) =
  Returned ([Both 1 2; Both 3 3; OnlyRight 4],
            [CLenLeft; CLenRight; CAddBoth 0 0; CAddBoth 1 1; CAddRight 2]).
Proof. vm_compute. reflexivity. Qed.

Example malformed_run :
  ZipWithGaps 4 (traced (indexZipper 2 2 (fun _ _ => 7))) (tt, []) =
  Panicked (BadCompare 7) (tt, [CLenLeft; CLenRight; CCompare 0 0]).
Proof. vm_compute. reflexivity. Qed.

Example growing_run :
  ZipWithGaps 9 (traced growingZipper) (0, []) =
  Returned (7, [CLenLeft; CLenRight; CCompare 0 0; CAddBoth 0 0;
                CCompare 1 1; CAddBoth 1 1; CAddRight 2]).
Proof. vm_compute. reflexivity. Qed.

Lemma ZipWithGaps_dispatch_witness :
  (ZipWithGaps 0 (traced scenario) ([], []) =
   OutOfFuel ([], [CLenLeft; CLenRight]) /\
   body (traced scenario) 3 3 0 0 ([], [CLenLeft; CLenRight]) =
   Next 1 0 ([OnlyLeft 1], [CLenLeft; CLenRight; CCompare 0 0; CAddLeft 0]) /\
   forall fuel,
     ZipWithGaps (1 + fuel) (traced scenario) ([], []) =
     run fuel (traced scenario) 3 3
         (1, 0, ([OnlyLeft 1],
                 [CLenLeft; CLenRight; CCompare 0 0; CAddLeft 0]))) /\
  (ZipWithGaps 1 (traced scenario) ([], []) =
   OutOfFuel ([OnlyLeft 1], [CLenLeft; CLenRight; CCompare 0 0; CAddLeft 0]) /\
   body (traced scenario) 3 3 1 0
        ([OnlyLeft 1], [CLenLeft; CLenRight; CCompare 0 0; CAddLeft 0]) =
   Next 1 1 ([OnlyLeft 1; OnlyRight 2],
             [CLenLeft; CLenRight; CCompare 0 0; CAddLeft 0; CCompare 1 0;
              CAddRight 0]) /\
   forall fuel,
     ZipWithGaps (2 + fuel) (traced scenario) ([], []) =
     run fuel (traced scenario) 3 3
         (1, 1, ([OnlyLeft 1; OnlyRight 2],
                 [CLenLeft; CLenRight; CCompare 0 0; CAddLeft 0; CCompare 1 0;
                  CAddRight 0]))) /\
  (ZipWithGaps 2 (traced scenario) ([], []) =
   OutOfFuel ([OnlyLeft 1; OnlyRight 2],
              [CLenLeft; CLenRight; CCompare 0 0; CAddLeft 0; CCompare 1 0;
               CAddRight 0]) /\
   body (traced scenario) 3 3 1 1
        ([OnlyLeft 1; OnlyRight 2],
         [CLenLeft; CLenRight; CCompare 0 0; CAddLeft 0; CCompare 1 0;
          CAddRight 0]) =
   Next 2 2 ([OnlyLeft 1; OnlyRight 2; Both 3 3],
             [CLenLeft; CLenRight; CCompare 0 0; CAddLeft 0; CCompare 1 0;
              CAddRight 0; CCompare 1 1; CAddBoth 1 1]) /\
   forall fuel,
     ZipWithGaps (3 + fuel) (traced scenario) ([], []) =
     run fuel (traced scenario) 3 3
         (2, 2, ([OnlyLeft 1; OnlyRight 2; Both 3 3],
                 [CLenLeft; CLenRight; CCompare 0 0; CAddLeft 0; CCompare 1 0;
                  CAddRight 0; CCompare 1 1; CAddBoth 1 1]))).
Proof.
  split; [| split].
  - destruct (@ZipWithGaps_dispatch go_ord (list Entry) scenario [] 3 3 [] []
                0 0 0 [] [CLenLeft; CLenRight] (-1) [])
      as (Hat & Hless & _ & _);
      [ exact go_ord_distinct | reflexivity | reflexivity | small_int
      | small_int | apply iterates_O | lia | lia | reflexivity | ].
    split; [exact Hat | exact (Hless eq_refl)].
  - destruct (@ZipWithGaps_dispatch go_ord (list Entry) scenario [] 3 3 [] []
                1 1 0 [OnlyLeft 1]
                [CLenLeft; CLenRight; CCompare 0 0; CAddLeft 0] 1
                [OnlyLeft 1])
      as (Hat & _ & Hgreater & _);
      [ exact go_ord_distinct | reflexivity | reflexivity | small_int
      | small_int | | lia | lia | reflexivity | ].
    + iterate_with (@body_less go_ord). apply iterates_O.
    + split; [exact Hat | exact (Hgreater eq_refl)].
  - destruct (@ZipWithGaps_dispatch go_ord (list Entry) scenario [] 3 3 [] []
                2 1 1 [OnlyLeft 1; OnlyRight 2]
                [CLenLeft; CLenRight; CCompare 0 0; CAddLeft 0; CCompare 1 0;
                 CAddRight 0] 0 [OnlyLeft 1; OnlyRight 2])
      as (Hat & _ & _ & Hequal);
      [ exact go_ord_distinct | reflexivity | reflexivity | small_int
      | small_int | | lia | lia | reflexivity | ].
    + iterate_with (@body_less go_ord).
      iterate_with (@body_greater go_ord).
      apply iterates_O.
    + split; [exact Hat | exact (Hequal eq_refl)].
Defined.
Lemma ZipWithGaps_negative_length_witness :
  ZipWithGaps 10 (traced (indexZipper 2 (-1) (fun _ _ => 0))) (tt, []) =
  Panicked (NegativeLengths 2 (-1)) (tt, [CLenLeft; CLenRight]).
Proof.
  apply (@ZipWithGaps_negative_length go_ord unit
           (indexZipper 2 (-1) (fun _ _ => 0)) tt 2 (-1) tt tt 10).
  - reflexivity.
  - reflexivity.
  - right. lia.
Defined.

Lemma ZipWithGaps_reads_lengths_once_witness :
  (forall fuel, exists evs,
      snd (outcome_state (ZipWithGaps fuel (traced growingZipper) (0, []))) =
      CLenLeft :: CLenRight :: evs /\
      Forall (fun c => is_len c = false) evs) /\
  (forall z' : Zipper Z,
      LenLeft z' 0 = (2, 1) -> LenRight z' 1 = (3, 2) ->
      Compare z' = Compare growingZipper ->
      AddLeft z' = AddLeft growingZipper ->
      AddRight z' = AddRight growingZipper ->
      AddBoth z' = AddBoth growingZipper ->
      forall fuel, ZipWithGaps fuel z' 0 = ZipWithGaps fuel growingZipper 0) /\
  (0 <= 2 <= max_int -> 0 <= 3 <= max_int ->
   forall k i j s', iterates growingZipper 2 3 k (0, 0, 2) (i, j, s') ->
                    0 <= i <= 2 /\ 0 <= j <= 3).
Proof.
  apply (@ZipWithGaps_reads_lengths_once go_ord Z growingZipper 0 2 3 1 2).
  - reflexivity.
  - reflexivity.
Defined.

Lemma Zip_calls_witness :
  (exists s',
     forall fuel, (Z.to_nat (Z.max 2 3) <= fuel)%nat ->
       Zip fuel (traced (sliceZipper [1; 3] [2; 3; 4])) ([], []) =
       Returned (s', [CLenLeft; CLenRight] ++ zip_calls 2 3)) /\
  (forall (T : Type) (z' : Zipper T) (t t1 t2 : T),
     LenLeft z' t = (2, t1) -> LenRight z' t1 = (3, t2) ->
     (forall i j u, fst (Compare z' i j u) = Equal) ->
     exists t' tr,
       appends tr = zip_calls 2 3 /\
       forall fuel, (Z.to_nat (Z.max 2 3) <= fuel)%nat ->
         ZipWithGaps fuel (traced z') (t, []) = Returned (t', tr)).
Proof.
  apply (@Zip_calls go_ord (list Entry) (sliceZipper [1; 3] [2; 3; 4])
           [] 2 3 [] []).
  - exact go_ord_distinct.
  - reflexivity.
  - reflexivity.
  - small_int.
  - small_int.
Defined.

Lemma ZipWithGaps_visits_each_index_once_witness :
  exists s' tr,
    (forall fuel, (Z.to_nat (3 + 3) <= fuel)%nat ->
       ZipWithGaps fuel (traced scenario) ([], []) = Returned (s', tr)) /\
    left_indices tr = range 0 3 /\
    right_indices tr = range 0 3.
Proof.
  apply (@ZipWithGaps_visits_each_index_once go_ord (list Entry) scenario
           [] 3 3 [] []).
  - apply sliceZipper_valid.
  - reflexivity.
  - reflexivity.
  - small_int.
  - small_int.
Defined.

Lemma ZipWithGaps_terminates_witness :
  exists k s' tr,
    iterates (traced scenario) 3 3 k (0, 0, ([], [CLenLeft; CLenRight]))
             (3, 3, (s', tr)) /\
    (forall i j, 0 <= i <= 3 -> 0 <= j <= 3 ->
                 (guard 3 3 i j = false <-> i = 3 /\ j = 3)) /\
    (forall fuel, (k <= fuel)%nat ->
       ZipWithGaps fuel (traced scenario) ([], []) = Returned (s', tr)) /\
    (forall fuel, (fuel < k)%nat ->
       exists st, ZipWithGaps fuel (traced scenario) ([], []) = OutOfFuel st) /\
    length (appends tr) = k /\
    Z.max 3 3 <= Z.of_nat k <= 3 + 3.
Proof.
  apply (@ZipWithGaps_terminates go_ord (list Entry) scenario [] 3 3 [] []).
  - apply sliceZipper_valid.
  - reflexivity.
  - reflexivity.
  - small_int.
  - small_int.
Defined.

Lemma ZipWithGaps_indices_in_range_witness :
  Forall (call_in_range 3 3)
         (snd (outcome_state (ZipWithGaps 6 (traced scenario) ([], [])))) /\
  ((Z.to_nat (3 + 3) <= 6)%nat ->
   forall st, ZipWithGaps 6 (traced scenario) ([], []) <> OutOfFuel st).
Proof.
  apply (@ZipWithGaps_indices_in_range go_ord (list Entry) scenario
           [] 3 3 [] [] 6).
  - reflexivity.
  - reflexivity.
  - small_int.
  - small_int.
Defined.

Lemma ZipWithGaps_malformed_compare_witness :
  (forall fuel, (0 < fuel)%nat ->
     ZipWithGaps fuel (traced (indexZipper 2 2 (fun _ _ => 7))) (tt, []) =
     Panicked (BadCompare 7) (tt, [CLenLeft; CLenRight] ++ [CCompare 0 0])) /\
  appends ([CLenLeft; CLenRight] ++ [CCompare 0 0]) =
  appends [CLenLeft; CLenRight] /\
  length (appends [CLenLeft; CLenRight]) = 0%nat.
Proof.
  apply (@ZipWithGaps_malformed_compare go_ord unit
           (indexZipper 2 2 (fun _ _ => 7)) tt 2 2 tt tt 0 0 0 tt
           [CLenLeft; CLenRight] 7 tt).
  - reflexivity.
  - reflexivity.
  - small_int.
  - small_int.
  - apply iterates_O.
  - lia.
  - lia.
  - reflexivity.
  - unfold valid_ord. simpl. lia.
Defined.

Lemma ZipWithGaps_drains_witness :
  (3 <= 2 -> 3 < 3 ->
   exists s'',
     iterates (traced scenario) 3 3 (Z.to_nat (3 - 3))
              (2, 3, ([OnlyLeft 1; OnlyRight 2; Both 3 3; OnlyRight 4],
                      [CLenLeft; CLenRight; CCompare 0 0; CAddLeft 0;
                       CCompare 1 0; CAddRight 0; CCompare 1 1; CAddBoth 1 1;
                       CCompare 2 2; CAddRight 2]))
              (2, 3, (s'', [CLenLeft; CLenRight; CCompare 0 0; CAddLeft 0;
                            CCompare 1 0; CAddRight 0; CCompare 1 1;
                            CAddBoth 1 1; CCompare 2 2; CAddRight 2]
                           ++ map CAddRight (range 3 3))) /\
     forall fuel, (4 + Z.to_nat (3 - 3) <= fuel)%nat ->
       ZipWithGaps fuel (traced scenario) ([], []) =
       Returned (s'', [CLenLeft; CLenRight; CCompare 0 0; CAddLeft 0;
                       CCompare 1 0; CAddRight 0; CCompare 1 1; CAddBoth 1 1;
                       CCompare 2 2; CAddRight 2]
                      ++ map CAddRight (range 3 3))) /\
  (3 <= 3 -> 2 < 3 ->
   exists s'',
     iterates (traced scenario) 3 3 (Z.to_nat (3 - 2))
              (2, 3, ([OnlyLeft 1; OnlyRight 2; Both 3 3; OnlyRight 4],
                      [CLenLeft; CLenRight; CCompare 0 0; CAddLeft 0;
                       CCompare 1 0; CAddRight 0; CCompare 1 1; CAddBoth 1 1;
                       CCompare 2 2; CAddRight 2]))
              (3, 3, (s'', [CLenLeft; CLenRight; CCompare 0 0; CAddLeft 0;
                            CCompare 1 0; CAddRight 0; CCompare 1 1;
                            CAddBoth 1 1; CCompare 2 2; CAddRight 2]
                           ++ map CAddLeft (range 2 3))) /\
     forall fuel, (4 + Z.to_nat (3 - 2) <= fuel)%nat ->
       ZipWithGaps fuel (traced scenario) ([], []) =
       Returned (s'', [CLenLeft; CLenRight; CCompare 0 0; CAddLeft 0;
                       CCompare 1 0; CAddRight 0; CCompare 1 1; CAddBoth 1 1;
                       CCompare 2 2; CAddRight 2]
                      ++ map CAddLeft (range 2 3))).
Proof.
  apply (@ZipWithGaps_drains go_ord (list Entry) scenario [] 3 3 [] [] 4 2 3
           [OnlyLeft 1; OnlyRight 2; Both 3 3; OnlyRight 4]
           [CLenLeft; CLenRight; CCompare 0 0; CAddLeft 0; CCompare 1 0;
            CAddRight 0; CCompare 1 1; CAddBoth 1 1; CCompare 2 2;
            CAddRight 2]).
  - reflexivity.
  - reflexivity.
  - small_int.
  - small_int.
  - iterate_with (@body_less go_ord).
    iterate_with (@body_greater go_ord).
    iterate_with (@body_equal go_ord).
    iterate_with (@body_greater go_ord).
    apply iterates_O.
Defined.

Lemma ZipWithGaps_scenario_witness :
  exists tr,
    (forall fuel, (5 <= fuel)%nat ->
       ZipWithGaps fuel (traced (sliceZipper [1; 3; 5] [2; 3; 4])) ([], []) =
       Returned ([OnlyLeft 1; OnlyRight 2; Both 3 3; OnlyRight 4; OnlyLeft 5],
                 tr)) /\
    appends tr =
    [CAddLeft 0; CAddRight 0; CAddBoth 1 1; CAddRight 2; CAddLeft 2].
Proof.
  apply (@ZipWithGaps_scenario go_ord). exact go_ord_distinct.
Defined.

End ConcreteRuns.

(** * Further properties of the engine *)

(** ** Lists read by index *)
Section Indexing.

Lemma at_index_In (l : list Z) (i : Z) :
  0 <= i < Z.of_nat (length l) -> In (at_index l i) l.
Proof. intros H. unfold at_index. apply nth_In. lia. Qed.

Lemma In_at_index (l : list Z) (x : Z) :
  In x l -> exists i, 0 <= i < Z.of_nat (length l) /\ at_index l i = x.
Proof.
  intros H. destruct (In_nth l x 0 H) as (k & Hk & Hx).
  exists (Z.of_nat k). split; [lia |].
  unfold at_index. rewrite Nat2Z.id. exact Hx.
Qed.

Lemma sorted_nth (R : Z -> Z -> Prop) (l : list Z) :
  StronglySorted R l ->
  forall a b, (a < b < length l)%nat -> R (nth a l 0) (nth b l 0).
Proof.
  induction 1 as [| x l Hs IH Hx]; intros a b Hab; simpl in Hab; [lia |].
  destruct b as [| b]; [lia |]. destruct a as [| a]; simpl.
  - rewrite Forall_forall in Hx. apply Hx. apply nth_In. lia.
  - apply IH. lia.
Qed.

(** A sorted list read at increasing indices. *)
Lemma sorted_at_index (R : Z -> Z -> Prop) (l : list Z) (a b : Z) :
  StronglySorted R l ->
  0 <= a -> a < b -> b < Z.of_nat (length l) ->
  R (at_index l a) (at_index l b).
Proof.
  intros Hs Ha Hab Hb. unfold at_index. apply sorted_nth; [exact Hs | lia].
Qed.

Lemma merged_app (left right : list Z) (l1 l2 : list Call) :
  merged left right (l1 ++ l2) = merged left right l1 ++ merged left right l2.
Proof.
  induction l1 as [| c l1 IH]; [reflexivity |].
  destruct c; simpl; rewrite IH; reflexivity.
Qed.

Lemma compares_app (l1 l2 : list Call) :
  compares (l1 ++ l2) = (compares l1 + compares l2)%nat.
Proof. unfold compares. rewrite filter_app, length_app. reflexivity. Qed.

End Indexing.

(** ** The engine under a numeric comparison *)
Section MergeSteps.
Import GoInt GoIntFacts.
Context {ov : OrdValues} {St : Type}.
Variable z : Zipper St.
Variables left right : list Z.
Variables m n : Z.
Hypothesis Hdis : ord_distinct ov.
Hypothesis Hm : m <= max_int.
Hypothesis Hn : n <= max_int.
Hypothesis Hleft : m = Z.of_nat (length left).
Hypothesis Hright : n = Z.of_nat (length right).
Hypothesis Hcmp : compares_slices z left right.

Lemma compare_Z_valid (x y : Z) : valid_ord (compare_Z x y).
Proof.
  unfold compare_Z, valid_ord.
  destruct (x <? y); [auto |]. destruct (y <? x); auto.
Qed.

(** An iteration of the body is a merge step. *)
Lemma body_merge_step (i j : Z) (s : St) (i' j' : Z) (s' : St) :
  0 <= i <= m -> 0 <= j <= n ->
  guard m n i j = true ->
  body z m n i j s = Next i' j' s' ->
  merge_step left right m n i j i' j' (iteration_calls z m n i j s).
Proof.
  intros Hi Hj Hg Hb. apply guard_true_iff in Hg.
  destruct Hdis as (Hle & Hlg & Heg).
  unfold body in Hb. unfold iteration_calls.
  destruct (Z.geb_spec i m) as [Him | Him].
  - injection Hb as <- <- <-. rewrite (incr_below j n) by lia.
    apply merge_left_exhausted; lia.
  - destruct (Z.geb_spec j n) as [Hjn | Hjn].
    + injection Hb as <- <- <-. rewrite (incr_below i m) by lia.
      apply merge_right_exhausted; lia.
    + assert (Hc := Hcmp i j s). rewrite <- Hleft, <- Hright in Hc.
      specialize (Hc ltac:(lia) ltac:(lia)).
      destruct (Compare z i j s) as [c s0]. simpl fst in *. subst c.
      unfold compare_Z in *.
      destruct (Z.ltb_spec (at_index left i) (at_index right j)) as [Hlt | Hge].
      { rewrite Z.eqb_refl in *. injection Hb as <- <- <-.
        rewrite (incr_below i m) by lia. apply merge_less; lia. }
      destruct (Z.ltb_spec (at_index right j) (at_index left i)) as [Hgt | Hle'].
      { destruct (Z.eqb_spec Greater Less) as [E | _]; [congruence |].
        rewrite Z.eqb_refl in *. injection Hb as <- <- <-.
        rewrite (incr_below j n) by lia. apply merge_greater; lia. }
      destruct (Z.eqb_spec Equal Less) as [E | _]; [congruence |].
      destruct (Z.eqb_spec Equal Greater) as [E | _]; [congruence |].
      rewrite Z.eqb_refl in *. injection Hb as <- <- <-.
      rewrite (incr_below i m), (incr_below j n) by lia.
      apply merge_equal; lia.
Qed.

Lemma merge_step_bounds (i j i' j' : Z) (calls : list Call) :
  0 <= i <= m -> 0 <= j <= n ->
  merge_step left right m n i j i' j' calls ->
  i <= i' <= m /\ j <= j' <= n.
Proof. intros Hi Hj Hs. destruct Hs; lia. Qed.

(** The iterations of the traced engine form a merge run. *)
Lemma iterates_merge_run (k : nat) (a b : LoopState) :
  iterates (traced z) m n k a b ->
  forall i j s tr i' j' s' tr',
    a = (i, j, (s, tr)) -> b = (i', j', (s', tr')) ->
    0 <= i <= m -> 0 <= j <= n ->
    exists evs, tr' = tr ++ evs /\ merge_run left right m n i j i' j' evs.
Proof.
  induction 1 as [a | k i0 j0 s0 i1 j1 s1 b Hg Hb _ IH];
    intros i j s tr i' j' s' tr' Ea Eb Hi Hj.
  - subst a. injection Eb as <- <- <- <-.
    exists []. rewrite app_nil_r. split; [reflexivity | constructor].
  - injection Ea as -> -> ->. rewrite body_traced in Hb.
    destruct (body z m n i j s) as [i2 j2 s2 | p s2] eqn:Hbz; [| discriminate].
    injection Hb as <- <- <-.
    pose proof (body_merge_step i j s i2 j2 s2 Hi Hj Hg Hbz) as Hstep.
    destruct (merge_step_bounds i j i2 j2 _ Hi Hj Hstep) as (Hi2 & Hj2).
    destruct (IH i2 j2 s2 _ i' j' s' tr' eq_refl Eb) as (evs & -> & Hrun);
      [lia | lia |].
    exists (iteration_calls z m n i j s ++ evs).
    split; [rewrite app_assoc; reflexivity |].
    econstructor; eassumption.
Qed.

(** The run to the end of both sides, as a merge run. *)
Lemma merge_run_complete (s : St) (tr : list Call) :
  exists k s' evs,
    iterates (traced z) m n k (0, 0, (s, tr)) (m, n, (s', tr ++ evs)) /\
    (Z.of_nat k <= m + n) /\
    merge_run left right m n 0 0 m n evs.
Proof.
  assert (Hm0 : 0 <= m) by lia. assert (Hn0 : 0 <= n) by lia.
  destruct (run_decompose (traced z) m n (Z.to_nat (m + n)) (0, 0, (s, tr)))
    as (k & i' & j' & [s' tr'] & Hk & Hit & Hend).
  destruct (iterates_bounds (traced z) m n _ _ _ Hm Hn Hit
              0 0 _ i' j' _ eq_refl eq_refl) as (Hi' & Hj' & Hcount);
    [lia | lia |].
  destruct (iterates_merge_run k _ _ Hit 0 0 s tr i' j' s' tr'
              eq_refl eq_refl) as (evs & -> & Hrun); [lia | lia |].
  destruct Hend as [(Hg & _) | [(Hkf & Hg & _) | (Hg & p & st & Hb & _)]].
  - apply guard_false_iff in Hg.
    assert (i' = m) by lia. assert (j' = n) by lia. subst i' j'.
    exists k, s', evs. repeat split; [exact Hit | lia | exact Hrun].
  - apply guard_true_iff in Hg. lia.
  - rewrite body_traced in Hb.
    destruct (body z m n i' j' s') as [? ? ? | p0 s0] eqn:E; [discriminate |].
    apply body_abort_inv in E. destruct E as (Hi'' & Hj'' & _ & _ & Hbad).
    exfalso. apply Hbad. rewrite Hcmp by lia. apply compare_Z_valid.
Qed.

End MergeSteps.

(** ** Merge runs *)
Section MergeRuns.

Variables left right : list Z.
Variables m n : Z.
Hypothesis Hleft : m = Z.of_nat (length left).
Hypothesis Hright : n = Z.of_nat (length right).

Lemma merge_run_pairs_equal (i j i' j' : Z) (evs : list Call) :
  merge_run left right m n i j i' j' evs ->
  Forall (pairs_equal left right) evs.
Proof.
  induction 1 as [| i j i1 j1 calls i' j' evs Hstep _ IH]; [constructor |].
  apply Forall_app. split; [| exact IH].
  destruct Hstep; repeat constructor. assumption.
Qed.

Lemma sorted_app (l1 l2 : list Z) :
  StronglySorted Z.le l1 -> StronglySorted Z.le l2 ->
  (forall u v, In u l1 -> In v l2 -> u <= v) ->
  StronglySorted Z.le (l1 ++ l2).
Proof.
  intros H1 H2 H12. induction H1 as [| x l1 Hs IH Hx]; [exact H2 |].
  simpl. constructor.
  - apply IH. intros u v Hu Hv. apply H12; [right; exact Hu | exact Hv].
  - apply Forall_app. split; [exact Hx |].
    apply Forall_forall. intros v Hv. apply H12; [left; reflexivity | exact Hv].
Qed.

Lemma pending_weaken (i j i1 j1 v : Z) :
  i <= i1 -> j <= j1 ->
  pending left right m n i1 j1 v -> pending left right m n i j v.
Proof.
  intros Hi Hj [(a & Ha & ->) | (b & Hb & ->)].
  - left. exists a. split; [lia | reflexivity].
  - right. exists b. split; [lia | reflexivity].
Qed.

Section Sorted.

Hypothesis Hsl : StronglySorted Z.le left.
Hypothesis Hsr : StronglySorted Z.le right.

Lemma left_le (a b : Z) :
  0 <= a -> a <= b -> b < m -> at_index left a <= at_index left b.
Proof.
  intros Ha Hab Hb. destruct (Z.eq_dec a b) as [-> | Hne]; [lia |].
  apply (sorted_at_index Z.le left a b Hsl); lia.
Qed.

Lemma right_le (a b : Z) :
  0 <= a -> a <= b -> b < n -> at_index right a <= at_index right b.
Proof.
  intros Ha Hab Hb. destruct (Z.eq_dec a b) as [-> | Hne]; [lia |].
  apply (sorted_at_index Z.le right a b Hsr); lia.
Qed.

(** The elements a step adds are pending before it and no larger than
    any element pending after it. *)
Lemma merge_step_least (i j i1 j1 : Z) (calls : list Call) :
  0 <= i -> 0 <= j ->
  merge_step left right m n i j i1 j1 calls ->
  StronglySorted Z.le (merged left right calls) /\
  (forall u, In u (merged left right calls) ->
             pending left right m n i j u /\
             forall v, pending left right m n i1 j1 v -> u <= v).
Proof.
  intros Hi Hj Hstep.
  destruct Hstep as [Him Hjn | Him Hjn | Him Hjn Hlt | Him Hjn Hgt | Him Hjn Heq];
    simpl.
  - split; [repeat constructor |]. intros u [<- | []]. split.
    + right. exists j. split; [lia | reflexivity].
    + intros v [(a & Ha & ->) | (b & Hb & ->)]; [lia |].
      apply right_le; lia.
  - split; [repeat constructor |]. intros u [<- | []]. split.
    + left. exists i. split; [lia | reflexivity].
    + intros v [(a & Ha & ->) | (b & Hb & ->)]; [| lia].
      apply left_le; lia.
  - split; [repeat constructor |]. intros u [<- | []]. split.
    + left. exists i. split; [lia | reflexivity].
    + intros v [(a & Ha & ->) | (b & Hb & ->)].
      * apply left_le; lia.
      * pose proof (right_le j b Hj (proj1 Hb) (proj2 Hb)). lia.
  - split; [repeat constructor |]. intros u [<- | []]. split.
    + right. exists j. split; [lia | reflexivity].
    + intros v [(a & Ha & ->) | (b & Hb & ->)].
      * pose proof (left_le i a Hi (proj1 Ha) (proj2 Ha)). lia.
      * apply right_le; lia.
  - split; [repeat constructor; lia |]. intros u Hu.
    assert (Hui : u = at_index left i) by (destruct Hu as [<- | [<- | []]]; lia).
    subst u. split.
    + left. exists i. split; [lia | reflexivity].
    + intros v [(a & Ha & ->) | (b & Hb & ->)].
      * apply left_le; lia.
      * rewrite Heq. apply right_le; lia.
Qed.

(** A merge of sorted slices adds its elements in sorted order. *)
Lemma merge_run_sorted (i j i' j' : Z) (evs : list Call) :
  merge_run left right m n i j i' j' evs ->
  0 <= i <= m -> 0 <= j <= n ->
  StronglySorted Z.le (merged left right evs) /\
  Forall (pending left right m n i j) (merged left right evs).
Proof.
  induction 1 as [| i j i1 j1 calls i' j' evs Hstep _ IH]; intros Hi Hj.
  - split; constructor.
  - destruct (merge_step_bounds left right m n i j i1 j1 calls Hi Hj Hstep)
      as (Hi1 & Hj1).
    destruct IH as (Hsorted & Hpend); [lia | lia |].
    destruct (merge_step_least i j i1 j1 calls (proj1 Hi) (proj1 Hj) Hstep)
      as (Hcs & Hleast).
    rewrite merged_app. rewrite Forall_forall in Hpend. split.
    + apply sorted_app; [exact Hcs | exact Hsorted |].
      intros u v Hu Hv. apply (proj2 (Hleast u Hu)). apply Hpend. exact Hv.
    + apply Forall_app. split; apply Forall_forall.
      * intros u Hu. apply (proj1 (Hleast u Hu)).
      * intros v Hv. apply (pending_weaken i j i1 j1); try lia.
        apply Hpend. exact Hv.
Qed.

End Sorted.

Section StrictlySorted.

Hypothesis Hsl : StronglySorted Z.lt left.
Hypothesis Hsr : StronglySorted Z.lt right.

Lemma left_lt (a b : Z) :
  0 <= a -> a < b -> b < m -> at_index left a < at_index left b.
Proof. intros. apply (sorted_at_index Z.lt left a b Hsl); lia. Qed.

Lemma right_lt (a b : Z) :
  0 <= a -> a < b -> b < n -> at_index right a < at_index right b.
Proof. intros. apply (sorted_at_index Z.lt right a b Hsr); lia. Qed.

Lemma not_on_right (i j : Z) :
  0 <= i < m -> 0 <= j <= n ->
  (forall b, 0 <= b < j -> at_index right b < at_index left i) ->
  (j < n -> at_index left i < at_index right j) ->
  ~ In (at_index left i) right.
Proof.
  intros Hi Hj Hbefore Hat Hin.
  destruct (In_at_index right _ Hin) as (b & Hb & Heq).
  destruct (Z.lt_ge_cases b j) as [Hlt | Hge].
  - specialize (Hbefore b ltac:(lia)). lia.
  - specialize (Hat ltac:(lia)).
    destruct (Z.eq_dec b j) as [-> | Hne]; [lia |].
    pose proof (right_lt j b ltac:(lia) ltac:(lia) ltac:(lia)). lia.
Qed.

Lemma not_on_left (i j : Z) :
  0 <= i <= m -> 0 <= j < n ->
  (forall a, 0 <= a < i -> at_index left a < at_index right j) ->
  (i < m -> at_index right j < at_index left i) ->
  ~ In (at_index right j) left.
Proof.
  intros Hi Hj Hbefore Hat Hin.
  destruct (In_at_index left _ Hin) as (a & Ha & Heq).
  destruct (Z.lt_ge_cases a i) as [Hlt | Hge].
  - specialize (Hbefore a ltac:(lia)). lia.
  - specialize (Hat ltac:(lia)).
    destruct (Z.eq_dec a i) as [-> | Hne]; [lia |].
    pose proof (left_lt i a ltac:(lia) ltac:(lia) ltac:(lia)). lia.
Qed.

Lemma merge_step_classifies (i j i1 j1 : Z) (calls : list Call) :
  0 <= i <= m -> 0 <= j <= n -> separated left right m n i j ->
  merge_step left right m n i j i1 j1 calls ->
  Forall (call_classifies left right) calls /\
  separated left right m n i1 j1.
Proof.
  intros Hi Hj (Hsep1 & Hsep2) Hstep.
  destruct Hstep as [Him Hjn | Him Hjn | Him Hjn Hlt | Him Hjn Hgt | Him Hjn Heq].
  - split.
    + repeat constructor. simpl.
      apply (not_on_left i j); try lia; auto.
    + split; [intros; lia |]. intros Hj1 a Ha.
      pose proof (Hsep2 Hjn a Ha).
      pose proof (right_lt j (j + 1) ltac:(lia) ltac:(lia) ltac:(lia)). lia.
  - split.
    + repeat constructor. simpl.
      apply (not_on_right i j); try lia; auto.
    + split; [| intros; lia]. intros Hi1 b Hb.
      pose proof (Hsep1 Him b Hb).
      pose proof (left_lt i (i + 1) ltac:(lia) ltac:(lia) ltac:(lia)). lia.
  - split.
    + repeat constructor. simpl. apply (not_on_right i j); try lia; auto.
    + split.
      * intros Hi1 b Hb. pose proof (Hsep1 Him b Hb).
        pose proof (left_lt i (i + 1) ltac:(lia) ltac:(lia) ltac:(lia)). lia.
      * intros _ a Ha. destruct (Z.eq_dec a i) as [-> | Hne]; [exact Hlt |].
        apply Hsep2; lia.
  - split.
    + repeat constructor. simpl. apply (not_on_left i j); try lia; auto.
    + split.
      * intros _ b Hb. destruct (Z.eq_dec b j) as [-> | Hne]; [exact Hgt |].
        apply Hsep1; lia.
      * intros Hj1 a Ha. pose proof (Hsep2 Hjn a Ha).
        pose proof (right_lt j (j + 1) ltac:(lia) ltac:(lia) ltac:(lia)). lia.
  - split.
    + repeat constructor. exact Heq.
    + split.
      * intros Hi1 b Hb.
        pose proof (left_lt i (i + 1) ltac:(lia) ltac:(lia) ltac:(lia)).
        destruct (Z.eq_dec b j) as [-> | Hne]; [lia |].
        pose proof (Hsep1 Him b ltac:(lia)). lia.
      * intros Hj1 a Ha.
        pose proof (right_lt j (j + 1) ltac:(lia) ltac:(lia) ltac:(lia)).
        destruct (Z.eq_dec a i) as [-> | Hne]; [lia |].
        pose proof (Hsep2 Hjn a ltac:(lia)). lia.
Qed.

Lemma merge_run_classifies (i j i' j' : Z) (evs : list Call) :
  merge_run left right m n i j i' j' evs ->
  0 <= i <= m -> 0 <= j <= n -> separated left right m n i j ->
  Forall (call_classifies left right) evs.
Proof.
  induction 1 as [| i j i1 j1 calls i' j' evs Hstep _ IH]; intros Hi Hj Hsep.
  - constructor.
  - destruct (merge_step_bounds left right m n i j i1 j1 calls Hi Hj Hstep)
      as (Hi1 & Hj1).
    destruct (merge_step_classifies i j i1 j1 calls Hi Hj Hsep Hstep)
      as (Hcalls & Hsep1).
    apply Forall_app. split; [exact Hcalls |]. apply IH; [lia | lia | exact Hsep1].
Qed.

End StrictlySorted.

End MergeRuns.

(** ** Merging sorted slices *)
Section MergeTheorems.
Import GoInt GoIntFacts.
Context {ov : OrdValues} {St : Type}.
Variable z : Zipper St.
Variables left right : list Z.
Variables s s1 s2 : St.
Hypothesis Hdis : ord_distinct ov.
Hypothesis Hcmp : compares_slices z left right.
Hypothesis Hl : LenLeft z s = (Z.of_nat (length left), s1).
Hypothesis Hr : LenRight z s1 = (Z.of_nat (length right), s2).
Hypothesis Hm : Z.of_nat (length left) <= max_int.
Hypothesis Hn : Z.of_nat (length right) <= max_int.

(** The call returns, and the calls after the two length reads form a
    merge run over both slices in which every index is used once. *)
Lemma ZipWithGaps_merge_run :
  exists s' evs,
    (forall fuel, (length left + length right <= fuel)%nat ->
       ZipWithGaps fuel (traced z) (s, []) =
       Returned (s', [CLenLeft; CLenRight] ++ evs)) /\
    merge_run left right (Z.of_nat (length left)) (Z.of_nat (length right))
              0 0 (Z.of_nat (length left)) (Z.of_nat (length right)) evs /\
    left_indices evs = range 0 (Z.of_nat (length left)) /\
    right_indices evs = range 0 (Z.of_nat (length right)).
Proof.
  destruct (merge_run_complete z left right _ _ Hdis Hm Hn eq_refl eq_refl
              Hcmp s2 [CLenLeft; CLenRight])
    as (k & s' & evs & Hit & Hk & Hrun).
  destruct (iterates_traced z _ _ Hm Hn k _ _ Hit 0 0 s2 [CLenLeft; CLenRight]
              _ _ s' _ eq_refl eq_refl) as (evs' & Heq & Hseg); [lia | lia |].
  apply app_inv_head in Heq. subst evs'.
  destruct Hseg as (_ & _ & _ & Hli & Hri & _).
  exists s', evs. split; [| split; [exact Hrun | split; assumption]].
  intros fuel Hfuel.
  eapply ZipWithGaps_traced_returns with (k := O);
    [exact Hl | exact Hr | lia | lia | constructor | exact Hit
    | apply guard_false_iff; lia | simpl; lia].
Qed.

End MergeTheorems.

Section MergeProperties.
Import GoInt GoIntFacts.
Context {ov : OrdValues} {St : Type}.

(** X1.  Under a comparison by numeric order, [AddBoth(i, j)] is only
    called on equal elements, whether or not the slices are sorted. *)
Theorem ZipWithGaps_pairs_equal_elements (z : Zipper St)
    (left right : list Z) (s s1 s2 : St) :
  ord_distinct ov -> compares_slices z left right ->
  LenLeft z s = (Z.of_nat (length left), s1) ->
  LenRight z s1 = (Z.of_nat (length right), s2) ->
  Z.of_nat (length left) <= max_int -> Z.of_nat (length right) <= max_int ->
  exists s' tr,
    (forall fuel, (length left + length right <= fuel)%nat ->
       ZipWithGaps fuel (traced z) (s, []) = Returned (s', tr)) /\
    Forall (pairs_equal left right) tr.
Proof.
  intros Hdis Hcmp Hl Hr Hm Hn.
  destruct (ZipWithGaps_merge_run z left right s s1 s2 Hdis Hcmp Hl Hr Hm Hn)
    as (s' & evs & Hret & Hrun & _).
  exists s', ([CLenLeft; CLenRight] ++ evs). split; [exact Hret |].
  apply Forall_app. split; [repeat constructor |].
  eapply merge_run_pairs_equal; eassumption.
Qed.

(** X2.  On slices sorted in ascending order (equal neighbours allowed)
    the elements are appended in ascending order. *)
Theorem ZipWithGaps_merge_sorted (z : Zipper St) (left right : list Z)
    (s s1 s2 : St) :
  ord_distinct ov -> compares_slices z left right ->
  LenLeft z s = (Z.of_nat (length left), s1) ->
  LenRight z s1 = (Z.of_nat (length right), s2) ->
  Z.of_nat (length left) <= max_int -> Z.of_nat (length right) <= max_int ->
  StronglySorted Z.le left -> StronglySorted Z.le right ->
  exists s' tr,
    (forall fuel, (length left + length right <= fuel)%nat ->
       ZipWithGaps fuel (traced z) (s, []) = Returned (s', tr)) /\
    StronglySorted Z.le (merged left right tr).
Proof.
  intros Hdis Hcmp Hl Hr Hm Hn Hsl Hsr.
  destruct (ZipWithGaps_merge_run z left right s s1 s2 Hdis Hcmp Hl Hr Hm Hn)
    as (s' & evs & Hret & Hrun & _).
  exists s', ([CLenLeft; CLenRight] ++ evs). split; [exact Hret |].
  change (merged left right ([CLenLeft; CLenRight] ++ evs))
    with (merged left right evs).
  eapply (merge_run_sorted left right _ _ eq_refl eq_refl Hsl Hsr);
    [exact Hrun | lia | lia].
Qed.

(** X3.  On strictly ascending slices every index is used once, and the
    calls classify the elements: [AddBoth(i, j)] pairs equal elements,
    [AddLeft(i)] adds an element that does not occur on the right and
    [AddRight(j)] one that does not occur on the left. *)
Theorem ZipWithGaps_merge_classifies (z : Zipper St) (left right : list Z)
    (s s1 s2 : St) :
  ord_distinct ov -> compares_slices z left right ->
  LenLeft z s = (Z.of_nat (length left), s1) ->
  LenRight z s1 = (Z.of_nat (length right), s2) ->
  Z.of_nat (length left) <= max_int -> Z.of_nat (length right) <= max_int ->
  StronglySorted Z.lt left -> StronglySorted Z.lt right ->
  exists s' tr,
    (forall fuel, (length left + length right <= fuel)%nat ->
       ZipWithGaps fuel (traced z) (s, []) = Returned (s', tr)) /\
    Forall (call_classifies left right) tr /\
    left_indices tr = range 0 (Z.of_nat (length left)) /\
    right_indices tr = range 0 (Z.of_nat (length right)).
Proof.
  intros Hdis Hcmp Hl Hr Hm Hn Hsl Hsr.
  destruct (ZipWithGaps_merge_run z left right s s1 s2 Hdis Hcmp Hl Hr Hm Hn)
    as (s' & evs & Hret & Hrun & Hli & Hri).
  exists s', ([CLenLeft; CLenRight] ++ evs).
  split; [exact Hret |]. split; [| split; assumption].
  apply Forall_app. split; [repeat constructor |].
  eapply (merge_run_classifies left right _ _ eq_refl eq_refl Hsl Hsr);
    [exact Hrun | lia | lia |].
  split; intros; lia.
Qed.

End MergeProperties.

(** ** Empty sides, and negative lengths under [Zip] *)
Section Edges.
Import GoInt GoIntFacts.
Context {ov : OrdValues} {St : Type}.

(** X4.  When one side is empty the engine never calls [Compare]: it
    appends the indices of the other side in ascending order and returns,
    whatever the comparison would answer.  With both sides empty it
    returns after the two length reads. *)
Theorem ZipWithGaps_empty_side (z : Zipper St) (s : St) (m n : Z)
    (s1 s2 : St) :
  LenLeft z s = (m, s1) -> LenRight z s1 = (n, s2) ->
  0 <= m <= max_int -> 0 <= n <= max_int ->
  (m = 0 ->
   exists s',
     forall fuel, (Z.to_nat n <= fuel)%nat ->
       ZipWithGaps fuel (traced z) (s, []) =
       Returned (s', [CLenLeft; CLenRight] ++ map CAddRight (range 0 n))) /\
  (n = 0 ->
   exists s',
     forall fuel, (Z.to_nat m <= fuel)%nat ->
       ZipWithGaps fuel (traced z) (s, []) =
       Returned (s', [CLenLeft; CLenRight] ++ map CAddLeft (range 0 m))).
Proof.
  intros Hl Hr Hm Hn. split; intros ->.
  - destruct (drain_right (traced z) 0 n (proj2 Hn) (traced_logs_right z)
                (Z.to_nat (n - 0)) 0 0 (s2, [CLenLeft; CLenRight]))
      as ([s' tr'] & Hd & Htr); [lia | lia | reflexivity |].
    simpl in Htr. subst tr'. exists s'. intros fuel Hfuel.
    eapply ZipWithGaps_traced_returns with (k := O);
      [exact Hl | exact Hr | lia | lia | constructor | exact Hd
      | apply guard_false_iff; lia | simpl; lia].
  - destruct (drain_left (traced z) m 0 (proj2 Hm) (traced_logs_left z)
                (Z.to_nat (m - 0)) 0 0 (s2, [CLenLeft; CLenRight]))
      as ([s' tr'] & Hd & Htr); [lia | lia | reflexivity |].
    simpl in Htr. subst tr'. exists s'. intros fuel Hfuel.
    eapply ZipWithGaps_traced_returns with (k := O);
      [exact Hl | exact Hr | lia | lia | constructor | exact Hd
      | apply guard_false_iff; lia | simpl; lia].
Qed.

(** X5.  [Zip] checks the lengths as [ZipWithGaps] does: with a negative
    length it panics after the two length reads, before any append. *)
Theorem Zip_negative_length (z : Zipper St) (s : St) (m n : Z) (s1 s2 : St)
    (fuel : nat) :
  LenLeft z s = (m, s1) -> LenRight z s1 = (n, s2) ->
  m < 0 \/ n < 0 ->
  Zip fuel (traced z) (s, []) =
  Panicked (NegativeLengths m n) (s2, [CLenLeft; CLenRight]).
Proof.
  intros Hl Hr Hneg. unfold Zip.
  rewrite (@ZipWithGaps_reads _ _ (alwaysEqualZipper (traced z)) (s, [])
             m n (s1, [CLenLeft]) (s2, [CLenLeft; CLenRight]) fuel).
  - destruct (Z.ltb_spec m 0); [reflexivity |].
    destruct (Z.ltb_spec n 0); [reflexivity | lia].
  - simpl. rewrite Hl. reflexivity.
  - simpl. rewrite Hr. reflexivity.
Qed.

End Edges.

(** ** The number of comparisons *)
Section Comparisons.
Import GoInt GoIntFacts.
Context {ov : OrdValues} {St : Type}.
Variable z : Zipper St.
Variables m n : Z.
Hypothesis Hm : m <= max_int.
Hypothesis Hn : n <= max_int.

Lemma compare_budget_nonneg (i j : Z) : 0 <= compare_budget m n i j.
Proof.
  unfold compare_budget.
  destruct (Z.ltb_spec i m); destruct (Z.ltb_spec j n); simpl; lia.
Qed.

Lemma compare_budget_in_range (i j : Z) :
  i < m -> j < n -> compare_budget m n i j = (m - i) + (n - j) - 1.
Proof.
  intros Hi Hj. unfold compare_budget.
  destruct (Z.ltb_spec i m); [| lia]. destruct (Z.ltb_spec j n); [| lia].
  reflexivity.
Qed.

(** An iteration makes at most one comparison. *)
Lemma iteration_calls_compares (i j : Z) (s : St) :
  (compares (iteration_calls z m n i j s) <= 1)%nat.
Proof.
  unfold iteration_calls, compares.
  destruct (i >=? m); [simpl; lia |]. destruct (j >=? n); [simpl; lia |].
  destruct (_ =? Less); [simpl; lia |].
  destruct (_ =? Greater); [simpl; lia |].
  destruct (_ =? Equal); simpl; lia.
Qed.

(** Each comparison of an iteration is paid from the budget. *)
Lemma body_spends_budget (i j : Z) (s : St) (i' j' : Z) (s' : St) :
  0 <= i <= m -> 0 <= j <= n ->
  guard m n i j = true ->
  body z m n i j s = Next i' j' s' ->
  Z.of_nat (compares (iteration_calls z m n i j s)) +
  compare_budget m n i' j' <= compare_budget m n i j.
Proof.
  intros Hi Hj Hg Hb. apply guard_true_iff in Hg.
  unfold body in Hb. unfold iteration_calls, compares, compare_budget.
  destruct (Z.geb_spec i m) as [Him | Him].
  - injection Hb as <- <- <-.
    destruct (Z.ltb_spec i m); [lia |]. cbn -[Z.add Z.sub Z.of_nat]. lia.
  - destruct (Z.geb_spec j n) as [Hjn | Hjn].
    + injection Hb as <- <- <-.
      destruct (Z.ltb_spec j n); [lia |]. rewrite !andb_false_r. cbn -[Z.add Z.sub Z.of_nat]. lia.
    + destruct (Z.ltb_spec i m); [| lia]. destruct (Z.ltb_spec j n); [| lia].
      destruct (Compare z i j s) as [c s0]. simpl fst.
      destruct (c =? Less).
      { injection Hb as <- <- <-. rewrite (incr_below i m) by lia.
        destruct (Z.ltb_spec (i + 1) m); destruct (Z.ltb_spec j n);
          cbn -[Z.add Z.sub Z.of_nat]; lia. }
      destruct (c =? Greater).
      { injection Hb as <- <- <-. rewrite (incr_below j n) by lia.
        destruct (Z.ltb_spec i m); destruct (Z.ltb_spec (j + 1) n);
          cbn -[Z.add Z.sub Z.of_nat]; lia. }
      destruct (c =? Equal); [| discriminate].
      injection Hb as <- <- <-.
      rewrite (incr_below i m), (incr_below j n) by lia.
      destruct (Z.ltb_spec (i + 1) m); destruct (Z.ltb_spec (j + 1) n);
        cbn -[Z.add Z.sub Z.of_nat]; lia.
Qed.

Lemma iterates_spend_budget (k : nat) (a b : LoopState) :
  iterates (traced z) m n k a b ->
  forall i j s tr i' j' s' tr',
    a = (i, j, (s, tr)) -> b = (i', j', (s', tr')) ->
    0 <= i <= m -> 0 <= j <= n ->
    exists evs,
      tr' = tr ++ evs /\
      Z.of_nat (compares evs) + compare_budget m n i' j' <=
      compare_budget m n i j.
Proof.
  induction 1 as [a | k i0 j0 s0 i1 j1 s1 b Hg Hb _ IH];
    intros i j s tr i' j' s' tr' Ea Eb Hi Hj.
  - subst a. injection Eb as <- <- <- <-.
    exists []. rewrite app_nil_r. split; [reflexivity |]. simpl. lia.
  - injection Ea as -> -> ->. rewrite body_traced in Hb.
    destruct (body z m n i j s) as [i2 j2 s2 | p s2] eqn:Hbz; [| discriminate].
    injection Hb as <- <- <-.
    destruct (body_next_step z m n Hm Hn i j s i2 j2 s2 Hi Hj Hg Hbz)
      as (Hi2 & Hj2 & _).
    pose proof (body_spends_budget i j s i2 j2 s2 Hi Hj Hg Hbz) as Hspend.
    destruct (IH i2 j2 s2 _ i' j' s' tr' eq_refl Eb) as (evs & -> & Hevs);
      [lia | lia |].
    exists (iteration_calls z m n i j s ++ evs).
    split; [rewrite app_assoc; reflexivity |].
    rewrite compares_app. lia.
Qed.

End Comparisons.

Section ComparisonBound.
Import GoInt GoIntFacts.
Context {ov : OrdValues} {St : Type}.

(** X7.  However the call ends, it makes at most [m + n - 1] calls of
    [Compare] when both sides are non-empty, and none when a side is
    empty. *)
Theorem ZipWithGaps_compare_bound (z : Zipper St) (s : St) (m n : Z)
    (s1 s2 : St) (fuel : nat) :
  LenLeft z s = (m, s1) -> LenRight z s1 = (n, s2) ->
  0 <= m <= max_int -> 0 <= n <= max_int ->
  Z.of_nat (compares (snd (outcome_state
                            (ZipWithGaps fuel (traced z) (s, []))))) <=
  (if (0 <? m) && (0 <? n) then m + n - 1 else 0).
Proof.
  intros Hl Hr Hm Hn.
  rewrite (ZipWithGaps_traced_loop z s fuel Hl Hr) by lia.
  destruct (run_decompose (traced z) m n fuel
              (0, 0, (s2, [CLenLeft; CLenRight])))
    as (k & i' & j' & [s' tr'] & Hk & Hit & Hend).
  destruct (iterates_spend_budget z m n (proj2 Hm) (proj2 Hn) k _ _ Hit
              0 0 s2 [CLenLeft; CLenRight] i' j' s' tr' eq_refl eq_refl)
    as (evs & -> & Hevs); [lia | lia |].
  assert (Hstart : compare_budget m n 0 0 =
                   if (0 <? m) && (0 <? n) then m + n - 1 else 0).
  { unfold compare_budget. destruct ((0 <? m) && (0 <? n)); lia. }
  rewrite <- Hstart.
  pose proof (compare_budget_nonneg m n i' j') as Hnn.
  assert (Hlog : compares ([CLenLeft; CLenRight] ++ evs) = compares evs)
    by reflexivity.
  destruct Hend as [(Hg & ->) | [(Hkf & Hg & ->) | (Hg & p & st & Hb & ->)]];
    cbn [outcome_state snd].
  - rewrite Hlog. lia.
  - rewrite Hlog. lia.
  - rewrite body_traced in Hb.
    destruct (body z m n i' j' s') as [? ? ? | p0 s0] eqn:E; [discriminate |].
    injection Hb as <- <-.
    change (Z.of_nat (compares (([CLenLeft; CLenRight] ++ evs) ++
                                iteration_calls z m n i' j' s')) <=
            compare_budget m n 0 0).
    apply body_abort_inv in E. destruct E as (Hi' & Hj' & _).
    rewrite (compare_budget_in_range m n i' j' Hi' Hj') in Hevs.
    destruct (iterates_bounds (traced z) m n _ _ _ (proj2 Hm) (proj2 Hn) Hit
                0 0 _ i' j' _ eq_refl eq_refl) as (Hbi & Hbj & _);
      [lia | lia |].
    pose proof (iteration_calls_compares z m n i' j' s') as Hone.
    rewrite compares_app, Hlog. lia.
Qed.

End ComparisonBound.

(** ** Comparisons that always give the same answer *)
Section ConstantComparison.
Import GoInt GoIntFacts.
Context {ov : OrdValues} {St : Type}.
Variable z : Zipper St.
Variables m n : Z.
Hypothesis Hdis : ord_distinct ov.
Hypothesis Hm : m <= max_int.
Hypothesis Hn : n <= max_int.

Lemma traced_compare (i j : Z) (st : St * list Call) (c : Ord) :
  fst (Compare z i j (fst st)) = c ->
  Compare (traced z) i j st =
  (c, (snd (Compare z i j (fst st)), snd st ++ [CCompare i j])).
Proof.
  intros Hc. simpl. destruct (Compare z i j (fst st)) as [c' u].
  simpl in Hc. subst c'. reflexivity.
Qed.

(** While the right side is not exhausted, an always-[Less] comparison
    appends the rest of the left side. *)
Lemma less_phase :
  (forall i j u, fst (Compare z i j u) = Less) ->
  forall (d : nat) (i j : Z) (st : St * list Call),
    0 <= i <= m -> 0 <= j < n -> d = Z.to_nat (m - i) ->
    exists st',
      iterates (traced z) m n d (i, j, st) (m, j, st') /\
      appends (snd st') = appends (snd st) ++ map CAddLeft (range i m).
Proof.
  intros Hless. induction d as [| d IH]; intros i j st Hi Hj Hd.
  - assert (i = m) as -> by lia. exists st. split; [constructor |].
    rewrite range_nil by lia. simpl. rewrite app_nil_r. reflexivity.
  - pose proof (traced_compare i j st Less (Hless i j (fst st))) as Hc.
    destruct (IH (i + 1) j (AddLeft (traced z) i
                              (snd (Compare z i j (fst st)),
                               snd st ++ [CCompare i j])))
      as (st' & Hit & Hst'); [lia | lia | lia |].
    exists st'. split.
    + eapply iterates_S; [| | exact Hit].
      * apply guard_true_iff. lia.
      * apply body_less; [exact Hm | lia | lia | exact Hc].
    + rewrite Hst', (range_cons i m) by lia. simpl snd.
      rewrite !appends_app. simpl. rewrite app_nil_r, <- app_assoc.
      reflexivity.
Qed.

(** While the left side is not exhausted, an always-[Greater] comparison
    appends the rest of the right side. *)
Lemma greater_phase :
  (forall i j u, fst (Compare z i j u) = Greater) ->
  forall (d : nat) (i j : Z) (st : St * list Call),
    0 <= i < m -> 0 <= j <= n -> d = Z.to_nat (n - j) ->
    exists st',
      iterates (traced z) m n d (i, j, st) (i, n, st') /\
      appends (snd st') = appends (snd st) ++ map CAddRight (range j n).
Proof.
  intros Hgreater. induction d as [| d IH]; intros i j st Hi Hj Hd.
  - assert (j = n) as -> by lia. exists st. split; [constructor |].
    rewrite range_nil by lia. simpl. rewrite app_nil_r. reflexivity.
  - pose proof (traced_compare i j st Greater (Hgreater i j (fst st))) as Hc.
    destruct (IH i (j + 1) (AddRight (traced z) j
                              (snd (Compare z i j (fst st)),
                               snd st ++ [CCompare i j])))
      as (st' & Hit & Hst'); [lia | lia | lia |].
    exists st'. split.
    + eapply iterates_S; [| | exact Hit].
      * apply guard_true_iff. lia.
      * apply body_greater; [exact Hn | exact Hdis | lia | lia | exact Hc].
    + rewrite Hst', (range_cons j n) by lia. simpl snd.
      rewrite !appends_app. simpl. rewrite app_nil_r, <- app_assoc.
      reflexivity.
Qed.

End ConstantComparison.

Section Concatenation.
Import GoInt GoIntFacts.
Context {ov : OrdValues} {St : Type}.

(** X8.  With a comparison that always answers [Less] the engine appends
    the whole left side and then the whole right side; with one that
    always answers [Greater], the whole right side and then the whole
    left side. *)
Theorem ZipWithGaps_constant_comparison (z : Zipper St) (s : St) (m n : Z)
    (s1 s2 : St) :
  ord_distinct ov ->
  LenLeft z s = (m, s1) -> LenRight z s1 = (n, s2) ->
  0 <= m <= max_int -> 0 <= n <= max_int ->
  ((forall i j u, fst (Compare z i j u) = Less) ->
   exists s' tr,
     (forall fuel, (Z.to_nat (m + n) <= fuel)%nat ->
        ZipWithGaps fuel (traced z) (s, []) = Returned (s', tr)) /\
     appends tr = map CAddLeft (range 0 m) ++ map CAddRight (range 0 n)) /\
  ((forall i j u, fst (Compare z i j u) = Greater) ->
   exists s' tr,
     (forall fuel, (Z.to_nat (m + n) <= fuel)%nat ->
        ZipWithGaps fuel (traced z) (s, []) = Returned (s', tr)) /\
     appends tr = map CAddRight (range 0 n) ++ map CAddLeft (range 0 m)).
Proof.
  intros Hdis Hl Hr Hm Hn. split.
  - intros Hless.
    assert (Hphase : exists st1,
               iterates (traced z) m n (Z.to_nat m)
                 (0, 0, (s2, [CLenLeft; CLenRight])) (m, 0, st1) /\
               appends (snd st1) = map CAddLeft (range 0 m)).
    { destruct (Z.eq_dec n 0) as [-> | Hn0].
      - destruct (drain_left (traced z) m 0 (proj2 Hm) (traced_logs_left z)
                    (Z.to_nat (m - 0)) 0 0 (s2, [CLenLeft; CLenRight]))
          as (st1 & Hit & Hst); [lia | lia | reflexivity |].
        exists st1. rewrite Z.sub_0_r in Hit. split; [exact Hit |].
        rewrite Hst, appends_app, appends_add_left. reflexivity.
      - destruct (less_phase z m n (proj2 Hm) Hless (Z.to_nat (m - 0)) 0 0
                    (s2, [CLenLeft; CLenRight]))
          as (st1 & Hit & Hst); [lia | lia | reflexivity |].
        exists st1. rewrite Z.sub_0_r in Hit. split; [exact Hit | exact Hst]. }
    destruct Hphase as (st1 & Hit1 & Hst1).
    destruct (drain_right (traced z) m n (proj2 Hn) (traced_logs_right z)
                (Z.to_nat (n - 0)) m 0 st1)
      as ([s' tr'] & Hit2 & Hst2); [lia | lia | reflexivity |].
    exists s', tr'. split.
    + intros fuel Hfuel.
      eapply ZipWithGaps_traced_returns;
        [exact Hl | exact Hr | lia | lia | exact Hit1 | exact Hit2
        | apply guard_false_iff; lia | lia].
    + simpl snd in Hst2. rewrite Hst2, appends_app, appends_add_right, Hst1.
      reflexivity.
  - intros Hgreater.
    assert (Hphase : exists st1,
               iterates (traced z) m n (Z.to_nat n)
                 (0, 0, (s2, [CLenLeft; CLenRight])) (0, n, st1) /\
               appends (snd st1) = map CAddRight (range 0 n)).
    { destruct (Z.eq_dec m 0) as [-> | Hm0].
      - destruct (drain_right (traced z) 0 n (proj2 Hn) (traced_logs_right z)
                    (Z.to_nat (n - 0)) 0 0 (s2, [CLenLeft; CLenRight]))
          as (st1 & Hit & Hst); [lia | lia | reflexivity |].
        exists st1. rewrite Z.sub_0_r in Hit. split; [exact Hit |].
        rewrite Hst, appends_app, appends_add_right. reflexivity.
      - destruct (greater_phase z m n Hdis (proj2 Hn) Hgreater
                    (Z.to_nat (n - 0)) 0 0 (s2, [CLenLeft; CLenRight]))
          as (st1 & Hit & Hst); [lia | lia | reflexivity |].
        exists st1. rewrite Z.sub_0_r in Hit. split; [exact Hit | exact Hst]. }
    destruct Hphase as (st1 & Hit1 & Hst1).
    destruct (drain_left (traced z) m n (proj2 Hm) (traced_logs_left z)
                (Z.to_nat (m - 0)) 0 n st1)
      as ([s' tr'] & Hit2 & Hst2); [lia | lia | reflexivity |].
    exists s', tr'. split.
    + intros fuel Hfuel.
      eapply ZipWithGaps_traced_returns;
        [exact Hl | exact Hr | lia | lia | exact Hit1 | exact Hit2
        | apply guard_false_iff; lia | lia].
    + simpl snd in Hst2. rewrite Hst2, appends_app, appends_add_left, Hst1.
      reflexivity.
Qed.

End Concatenation.

(** ** Exchanging the two sides *)
Section Mirror.
Context {ov : OrdValues} {St : Type}.
Variable z : Zipper St.
Hypothesis Hdis : ord_distinct ov.

Lemma guard_swap (m n i j : Z) : guard n m j i = guard m n i j.
Proof. unfold guard. apply orb_comm. Qed.

Lemma body_mirrored (m n i j : Z) (s : St) :
  guard m n i j = true ->
  body (mirrored z) n m j i s = swap_cursors (body z m n i j s).
Proof.
  intros Hg. apply guard_true_iff in Hg.
  destruct Hdis as (Hle & Hlg & Heg).
  unfold body. simpl.
  destruct (Z.geb_spec i m) as [Him | Him];
    destruct (Z.geb_spec j n) as [Hjn | Hjn]; try reflexivity; [lia |].
  destruct (Compare z i j s) as [c s']. unfold flip_ord.
  destruct (Z.eqb_spec c Less) as [-> | Hcl].
  { destruct (Z.eqb_spec Greater Less) as [E | _]; [congruence |].
    rewrite Z.eqb_refl. reflexivity. }
  destruct (Z.eqb_spec c Greater) as [-> | Hcg].
  { rewrite Z.eqb_refl. reflexivity. }
  destruct (Z.eqb_spec c Less) as [E | _]; [congruence |].
  destruct (Z.eqb_spec c Greater) as [E | _]; [congruence |].
  destruct (c =? Equal); reflexivity.
Qed.

Lemma loop_mirrored (m n : Z) (fuel : nat) :
  forall i j s, loop fuel (mirrored z) n m j i s = loop fuel z m n i j s.
Proof.
  induction fuel as [| fuel IH]; intros i j s; simpl; rewrite guard_swap.
  - reflexivity.
  - destruct (guard m n i j) eqn:Hg; [| reflexivity].
    rewrite (body_mirrored m n i j s Hg).
    destruct (body z m n i j s) as [i' j' s' | p s']; simpl;
      [apply IH | reflexivity].
Qed.

End Mirror.

Section MirrorTheorem.
Context {ov : OrdValues} {St : Type}.

(** The loop panics on a comparison result only. *)
Lemma loop_not_negative_lengths (z : Zipper St) (m n : Z) (fuel : nat) :
  forall i j u a b u',
    loop fuel z m n i j u <> Panicked (NegativeLengths a b) u'.
Proof.
  induction fuel as [| fuel IH]; intros i j u a b u'; simpl.
  - destruct (guard m n i j); discriminate.
  - destruct (guard m n i j); [| discriminate].
    destruct (body z m n i j u) as [i' j' u1 | p u1] eqn:Hb; [apply IH |].
    apply body_abort_inv in Hb. destruct Hb as (_ & _ & -> & _).
    discriminate.
Qed.

(** X9.  Exchanging the two sides of a [Zipper] whose length methods
    leave the caller's data unchanged, with the comparison taken from
    the other element, does not change the call: it ends in the same way
    with the same data (a negative-lengths panic reports the lengths in
    the exchanged order). *)
Theorem ZipWithGaps_mirrored (z : Zipper St) (s : St) (m n : Z) (fuel : nat) :
  ord_distinct ov ->
  LenLeft z s = (m, s) -> LenRight z s = (n, s) ->
  ZipWithGaps fuel (mirrored z) s = swap_lengths (ZipWithGaps fuel z s).
Proof.
  intros Hdis Hl Hr. unfold ZipWithGaps. simpl.
  repeat (first [rewrite Hl | rewrite Hr]; cbv beta iota).
  rewrite (orb_comm (n <? 0) (m <? 0)).
  destruct ((m <? 0) || (n <? 0)); [reflexivity |].
  rewrite (loop_mirrored z Hdis m n fuel 0 0 s).
  destruct (loop fuel z m n 0 0 s) as [s' | p s' | s'] eqn:E;
    try reflexivity.
  destruct p as [a b | c]; [| reflexivity].
  exfalso. exact (loop_not_negative_lengths z m n fuel 0 0 s a b s' E).
Qed.

End MirrorTheorem.

(** ** Nothing is lost and nothing is added twice *)
Section Conservation.
Import GoInt GoIntFacts.
Context {ov : OrdValues} {St : Type}.

Lemma merged_by_indices (left right : list Z) (tr : list Call) :
  Permutation (merged left right tr)
              (map (at_index left) (left_indices tr) ++
               map (at_index right) (right_indices tr)).
Proof.
  induction tr as [| c tr IH]; [constructor |].
  destruct c; simpl; try exact IH.
  - apply perm_skip. exact IH.
  - apply Permutation_cons_app. exact IH.
  - apply perm_skip. apply Permutation_cons_app. exact IH.
Qed.

Lemma at_index_cons (x : Z) (l : list Z) (i : Z) :
  0 <= i -> at_index (x :: l) (i + 1) = at_index l i.
Proof.
  intros Hi. unfold at_index.
  replace (Z.to_nat (i + 1)) with (S (Z.to_nat i)) by lia. reflexivity.
Qed.

Lemma map_at_index_upto (x : Z) (l : list Z) (len : nat) :
  forall lo, 0 <= lo ->
  map (at_index (x :: l)) (upto (lo + 1) len) = map (at_index l) (upto lo len).
Proof.
  induction len as [| len IH]; intros lo Hlo; [reflexivity |].
  simpl. rewrite at_index_cons by lia. f_equal. apply IH. lia.
Qed.

(** Reading a list at all its indices gives the list. *)
Lemma map_at_index_range (l : list Z) :
  map (at_index l) (range 0 (Z.of_nat (length l))) = l.
Proof.
  unfold range. rewrite Z.sub_0_r, Nat2Z.id.
  induction l as [| x l IH]; [reflexivity |].
  simpl length. cbn [upto map]. f_equal.
  rewrite (map_at_index_upto x l (length l) 0) by lia. exact IH.
Qed.

(** X10.  With a comparison that answers only [Less], [Equal] or
    [Greater] (not necessarily an ordering of the elements), and on
    slices that need not be sorted, the elements appended are those of
    both slices, each as often as it occurs. *)
Theorem ZipWithGaps_merge_permutation (z : Zipper St) (left right : list Z)
    (s s1 s2 : St) :
  (forall i j u, valid_ord (fst (Compare z i j u))) ->
  LenLeft z s = (Z.of_nat (length left), s1) ->
  LenRight z s1 = (Z.of_nat (length right), s2) ->
  Z.of_nat (length left) <= max_int -> Z.of_nat (length right) <= max_int ->
  exists s' tr,
    (forall fuel, (length left + length right <= fuel)%nat ->
       ZipWithGaps fuel (traced z) (s, []) = Returned (s', tr)) /\
    Permutation (merged left right tr) (left ++ right).
Proof.
  intros Hvalid Hl Hr Hm Hn.
  destruct (traced_run_complete z _ _ Hm Hn Hvalid 0 0 s2 [CLenLeft; CLenRight])
    as (k & s' & evs & Hit & Hseg); [lia | lia |].
  destruct Hseg as (_ & _ & Hk & Hli & Hri & _).
  exists s', ([CLenLeft; CLenRight] ++ evs). split.
  - intros fuel Hfuel.
    eapply ZipWithGaps_traced_returns with (k := O);
      [exact Hl | exact Hr | lia | lia | constructor | exact Hit
      | apply guard_false_iff; lia | simpl; lia].
  - change (merged left right ([CLenLeft; CLenRight] ++ evs))
      with (merged left right evs).
    rewrite (merged_by_indices left right evs), Hli, Hri.
    rewrite !map_at_index_range. reflexivity.
Qed.

End Conservation.

(** ** What the engine keeps true of the caller's data *)
Section StateInvariant.
Context {ov : OrdValues} {St : Type}.
Variable w : Zipper St.
Variable P : St -> Prop.
Hypothesis Hcompare : forall i j s, P s -> P (snd (Compare w i j s)).
Hypothesis Hadd_left : forall i s, P s -> P (AddLeft w i s).
Hypothesis Hadd_right : forall j s, P s -> P (AddRight w j s).
Hypothesis Hadd_both : forall i j s, P s -> P (AddBoth w i j s).

(** The body reaches the caller's data through [Compare] and the append
    methods only. *)
Lemma body_preserves (m n i j : Z) (s : St) (i' j' : Z) (s' : St) :
  P s -> body w m n i j s = Next i' j' s' -> P s'.
Proof.
  intros Hs. unfold body.
  destruct (i >=? m); [intros E; injection E as <- <- <-; auto |].
  destruct (j >=? n); [intros E; injection E as <- <- <-; auto |].
  pose proof (Hcompare i j s Hs) as Hc.
  destruct (Compare w i j s) as [c u]. simpl in Hc.
  destruct (c =? Less); [intros E; injection E as <- <- <-; auto |].
  destruct (c =? Greater); [intros E; injection E as <- <- <-; auto |].
  destruct (c =? Equal); [intros E; injection E as <- <- <-; auto |].
  discriminate.
Qed.

Lemma iterates_preserves (m n : Z) (k : nat) (a b : LoopState) :
  iterates w m n k a b -> P (snd a) -> P (snd b).
Proof.
  induction 1 as [a | k i j s i' j' s' b Hg Hb _ IH]; [auto |].
  simpl. intros Hs. apply IH. simpl. eapply body_preserves; eassumption.
Qed.

End StateInvariant.

(** ** [Zip] on two slices *)
Section Pairing.
Import GoInt GoIntFacts.
Context {ov : OrdValues}.

Lemma entries_app (left right : list Z) (l1 l2 : list Call) :
  entries left right (l1 ++ l2) =
  entries left right l1 ++ entries left right l2.
Proof. apply flat_map_app. Qed.

Lemma map_upto_shift {A : Type} (g : Z -> A) (len : nat) :
  forall lo, map g (upto (lo + 1) len) = map (fun i => g (i + 1)) (upto lo len).
Proof.
  induction len as [| len IH]; intros lo; [reflexivity |].
  simpl. f_equal. apply IH.
Qed.

Lemma map_range_shift {A : Type} (g : Z -> A) (lo hi : Z) :
  map g (range (lo + 1) (hi + 1)) = map (fun i => g (i + 1)) (range lo hi).
Proof.
  unfold range. replace (hi + 1 - (lo + 1)) with (hi - lo) by lia.
  apply map_upto_shift.
Qed.

Lemma entries_map (left right : list Z) (f : Z -> Call) (g : Z -> Entry)
    (l : list Z) :
  (forall i, entry_of left right (f i) = [g i]) ->
  entries left right (map f l) = map g l.
Proof.
  intros Hfg. induction l as [| i l IH]; [reflexivity |].
  simpl. unfold entries in *. simpl. rewrite Hfg, IH. reflexivity.
Qed.

(** The entries of the calls of [zip_calls], read off by position. *)
Lemma entries_zip_calls (left right : list Z) :
  entries left right
          (zip_calls (Z.of_nat (length left)) (Z.of_nat (length right))) =
  pair_up left right.
Proof.
  unfold zip_calls. rewrite entries_app.
  rewrite (entries_map left right (fun i => CAddBoth i i)
             (fun i => Both (at_index left i) (at_index right i)))
    by reflexivity.
  revert right. induction left as [| x l IH]; intros right.
  - simpl length. change (Z.of_nat 0) with 0.
    rewrite range_nil by lia.
    destruct (Z.ltb_spec (Z.of_nat (length right)) 0); [lia |].
    rewrite (entries_map [] right CAddRight
               (fun j => OnlyRight (at_index right j))) by reflexivity.
    cbn [pair_up map app].
    rewrite <- (map_map (at_index right) OnlyRight), map_at_index_range.
    reflexivity.
  - destruct right as [| y r].
    + simpl (length []). change (Z.of_nat 0) with 0.
      rewrite range_nil by lia.
      destruct (Z.ltb_spec 0 (Z.of_nat (length (x :: l))));
        [| simpl length in *; lia].
      rewrite (entries_map (x :: l) [] CAddLeft
                 (fun i => OnlyLeft (at_index (x :: l) i))) by reflexivity.
      cbn [pair_up app].
      rewrite <- (map_map (at_index (x :: l)) OnlyLeft), map_at_index_range.
      reflexivity.
    + specialize (IH r). simpl length.
      replace (Z.of_nat (S (length l))) with (Z.of_nat (length l) + 1) by lia.
      replace (Z.of_nat (S (length r))) with (Z.of_nat (length r) + 1) by lia.
      set (m := Z.of_nat (length l)) in *. set (n := Z.of_nat (length r)) in *.
      replace (Z.min (m + 1) (n + 1)) with (Z.min m n + 1) by lia.
      rewrite (range_cons 0 (Z.min m n + 1)) by lia.
      cbn [map]. change (at_index (x :: l) 0) with x.
      change (at_index (y :: r) 0) with y.
      cbn [pair_up app]. f_equal. rewrite <- IH.
      change 1 with (0 + 1) at 1. rewrite map_range_shift.
      f_equal.
      * apply map_ext_in. intros i Hi. apply range_In in Hi.
        rewrite !at_index_cons by lia. reflexivity.
      * replace (n + 1 <? m + 1) with (n <? m)
          by (destruct (Z.ltb_spec n m); destruct (Z.ltb_spec (n + 1) (m + 1));
              lia || reflexivity).
        destruct (n <? m).
        -- rewrite !(entries_map _ _ CAddLeft
                       (fun i => OnlyLeft (at_index _ i))) by reflexivity.
           rewrite map_range_shift. apply map_ext_in. intros i Hi.
           apply range_In in Hi. rewrite at_index_cons by lia. reflexivity.
        -- rewrite !(entries_map _ _ CAddRight
                       (fun j => OnlyRight (at_index _ j))) by reflexivity.
           rewrite map_range_shift. apply map_ext_in. intros i Hi.
           apply range_In in Hi. rewrite at_index_cons by lia. reflexivity.
Qed.

(** X6.  [Zip] on two slices pairs them position by position: it adds
    to the output the pairs up to the shorter length and then the rest of
    the longer slice, whatever the elements are. *)
Theorem Zip_pairs_positionally (left right : list Z) (out : list Entry) :
  ord_distinct ov ->
  Z.of_nat (length left) <= max_int -> Z.of_nat (length right) <= max_int ->
  forall fuel, (Nat.max (length left) (length right) <= fuel)%nat ->
    Zip fuel (traced (sliceZipper left right)) (out, []) =
    Returned (out ++ pair_up left right,
              [CLenLeft; CLenRight] ++
              zip_calls (Z.of_nat (length left)) (Z.of_nat (length right))).
Proof.
  intros Hdis Hm Hn fuel Hfuel.
  set (m := Z.of_nat (length left)) in *.
  set (n := Z.of_nat (length right)) in *.
  set (w := alwaysEqualZipper (traced (sliceZipper left right))).
  destruct (always_equal_run w m n Hm Hn (fun _ _ => []) Hdis)
    with (st := (out, [CLenLeft; CLenRight])) as ([out' tr'] & Hit & Htr);
    try (intros; reflexivity); try lia.
  { intros i j st. simpl. rewrite app_nil_r. split; reflexivity. }
  simpl snd in Htr. rewrite flat_map_one in Htr. fold (zip_calls m n) in Htr.
  assert (Hout : out' = out ++ entries left right tr').
  { apply (iterates_preserves w
             (fun st => fst st = out ++ entries left right (snd st)))
      in Hit.
    - exact Hit.
    - intros i j st Hst. exact Hst.
    - intros i st Hst. simpl. rewrite Hst, entries_app, app_assoc.
      reflexivity.
    - intros j st Hst. simpl. rewrite Hst, entries_app, app_assoc.
      reflexivity.
    - intros i j st Hst. simpl. rewrite Hst, entries_app, app_assoc.
      reflexivity.
    - simpl. rewrite app_nil_r. reflexivity. }
  unfold Zip. fold w.
  rewrite (@ZipWithGaps_reads _ _ w (out, [])
             m n (out, [CLenLeft]) (out, [CLenLeft; CLenRight]) fuel)
    by reflexivity.
  destruct (Z.ltb_spec m 0); [lia |]. destruct (Z.ltb_spec n 0); [lia |].
  simpl orb. cbv iota.
  replace fuel with (Z.to_nat (Z.max m n) + (fuel - Z.to_nat (Z.max m n)))%nat
    by lia.
  change (loop ?f w m n 0 0 ?st) with (run f w m n (0, 0, st)).
  rewrite (run_iterates _ _ _ _ _ _ Hit).
  cbn [run]. rewrite loop_exit by (apply guard_false_iff; lia).
  rewrite Hout, Htr. do 3 f_equal.
  rewrite entries_app. apply entries_zip_calls.
Qed.

End Pairing.

(** * Concrete runs of the further properties *)
Section MoreConcreteRuns.
Import GoInt.

Local Existing Instance go_ord.

Lemma sliceZipper_compares (left right : list Z) :
  compares_slices (sliceZipper left right) left right.
Proof. intros i j s _ _. reflexivity. Qed.

Example unsorted_run :
  ZipWithGaps 4 (traced (sliceZipper [3; 1] [2; 3])) ([], []) =
  Returned ([OnlyRight 2; Both 3 3; OnlyLeft 1],
            [CLenLeft; CLenRight; CCompare 0 0; CAddRight 0; CCompare 0 1;
             CAddBoth 0 1; CAddLeft 1]).
Proof. vm_compute. reflexivity. Qed.

Example mirrored_run :
  ZipWithGaps 5 (mirrored scenario) [] =
  Returned [OnlyLeft 1; OnlyRight 2; Both 3 3; OnlyRight 4; OnlyLeft 5].
Proof. vm_compute. reflexivity. Qed.

Lemma ZipWithGaps_pairs_equal_elements_witness :
  exists s' tr,
    (forall fuel, (length [3; 1] + length [2; 3] <= fuel)%nat ->
       ZipWithGaps fuel (traced (sliceZipper [3; 1] [2; 3])) ([], []) =
       Returned (s', tr)) /\
    Forall (pairs_equal [3; 1] [2; 3]) tr.
Proof.
  apply (@ZipWithGaps_pairs_equal_elements go_ord (list Entry)
           (sliceZipper [3; 1] [2; 3]) [3; 1] [2; 3] [] [] []).
  - exact go_ord_distinct.
  - apply sliceZipper_compares.
  - reflexivity.
  - reflexivity.
  - simpl. small_int.
  - simpl. small_int.
Defined.

Lemma ZipWithGaps_merge_sorted_witness :
  exists s' tr,
    (forall fuel, (length [1; 3; 3] + length [3; 4] <= fuel)%nat ->
       ZipWithGaps fuel (traced (sliceZipper [1; 3; 3] [3; 4])) ([], []) =
       Returned (s', tr)) /\
    StronglySorted Z.le (merged [1; 3; 3] [3; 4] tr).
Proof.
  apply (@ZipWithGaps_merge_sorted go_ord (list Entry)
           (sliceZipper [1; 3; 3] [3; 4]) [1; 3; 3] [3; 4] [] [] []).
  - exact go_ord_distinct.
  - apply sliceZipper_compares.
  - reflexivity.
  - reflexivity.
  - simpl. small_int.
  - simpl. small_int.
  - repeat constructor; lia.
  - repeat constructor; lia.
Defined.

Lemma ZipWithGaps_merge_classifies_witness :
  exists s' tr,
    (forall fuel, (length [1; 3; 5] + length [2; 3; 4] <= fuel)%nat ->
       ZipWithGaps fuel (traced scenario) ([], []) = Returned (s', tr)) /\
    Forall (call_classifies [1; 3; 5] [2; 3; 4]) tr /\
    left_indices tr = range 0 (Z.of_nat (length [1; 3; 5])) /\
    right_indices tr = range 0 (Z.of_nat (length [2; 3; 4])).
Proof.
  apply (@ZipWithGaps_merge_classifies go_ord (list Entry) scenario
           [1; 3; 5] [2; 3; 4] [] [] []).
  - exact go_ord_distinct.
  - apply sliceZipper_compares.
  - reflexivity.
  - reflexivity.
  - simpl. small_int.
  - simpl. small_int.
  - repeat constructor; lia.
  - repeat constructor; lia.
Defined.

Lemma ZipWithGaps_empty_side_witness :
  (0 = 0 ->
   exists s',
     forall fuel, (Z.to_nat 2 <= fuel)%nat ->
       ZipWithGaps fuel (traced (indexZipper 0 2 (fun _ _ => 7))) (tt, []) =
       Returned (s', [CLenLeft; CLenRight] ++ map CAddRight (range 0 2))) /\
  (2 = 0 ->
   exists s',
     forall fuel, (Z.to_nat 0 <= fuel)%nat ->
       ZipWithGaps fuel (traced (indexZipper 0 2 (fun _ _ => 7))) (tt, []) =
       Returned (s', [CLenLeft; CLenRight] ++ map CAddLeft (range 0 0))).
Proof.
  apply (@ZipWithGaps_empty_side go_ord unit (indexZipper 0 2 (fun _ _ => 7))
           tt 0 2 tt tt).
  - reflexivity.
  - reflexivity.
  - small_int.
  - small_int.
Defined.

Lemma Zip_negative_length_witness :
  Zip 10 (traced (indexZipper (-1) 2 (fun _ _ => 0))) (tt, []) =
  Panicked (NegativeLengths (-1) 2) (tt, [CLenLeft; CLenRight]).
Proof.
  apply (@Zip_negative_length go_ord unit (indexZipper (-1) 2 (fun _ _ => 0))
           tt (-1) 2 tt tt 10).
  - reflexivity.
  - reflexivity.
  - left. lia.
Defined.

Lemma Zip_pairs_positionally_witness :
  Zip 3 (traced (sliceZipper [1; 3] [2; 3; 4])) ([OnlyLeft 0], []) =
  Returned ([OnlyLeft 0] ++ pair_up [1; 3] [2; 3; 4],
            [CLenLeft; CLenRight] ++
            zip_calls (Z.of_nat (length [1; 3]))
                      (Z.of_nat (length [2; 3; 4]))).
Proof.
  apply (@Zip_pairs_positionally go_ord [1; 3] [2; 3; 4] [OnlyLeft 0]).
  - exact go_ord_distinct.
  - simpl. small_int.
  - simpl. small_int.
  - simpl. lia.
Defined.

Lemma ZipWithGaps_compare_bound_witness :
  Z.of_nat (compares (snd (outcome_state
                            (ZipWithGaps 6 (traced scenario) ([], []))))) <=
  (if (0 <? 3) && (0 <? 3) then 3 + 3 - 1 else 0).
Proof.
  apply (@ZipWithGaps_compare_bound go_ord (list Entry) scenario
           [] 3 3 [] [] 6).
  - reflexivity.
  - reflexivity.
  - small_int.
  - small_int.
Defined.

Lemma ZipWithGaps_constant_comparison_witness :
  ((forall i j u,
       fst (Compare (indexZipper 2 3 (fun _ _ => -1)) i j u) = Less) ->
   exists s' tr,
     (forall fuel, (Z.to_nat (2 + 3) <= fuel)%nat ->
        ZipWithGaps fuel (traced (indexZipper 2 3 (fun _ _ => -1))) (tt, []) =
        Returned (s', tr)) /\
     appends tr = map CAddLeft (range 0 2) ++ map CAddRight (range 0 3)) /\
  ((forall i j u,
       fst (Compare (indexZipper 2 3 (fun _ _ => -1)) i j u) = Greater) ->
   exists s' tr,
     (forall fuel, (Z.to_nat (2 + 3) <= fuel)%nat ->
        ZipWithGaps fuel (traced (indexZipper 2 3 (fun _ _ => -1))) (tt, []) =
        Returned (s', tr)) /\
     appends tr = map CAddRight (range 0 3) ++ map CAddLeft (range 0 2)).
Proof.
  apply (@ZipWithGaps_constant_comparison go_ord unit
           (indexZipper 2 3 (fun _ _ => -1)) tt 2 3 tt tt).
  - exact go_ord_distinct.
  - reflexivity.
  - reflexivity.
  - small_int.
  - small_int.
Defined.

Lemma ZipWithGaps_mirrored_witness :
  ZipWithGaps 6 (mirrored scenario) [] =
  swap_lengths (ZipWithGaps 6 scenario []).
Proof.
  apply (@ZipWithGaps_mirrored go_ord (list Entry) scenario [] 3 3 6).
  - exact go_ord_distinct.
  - reflexivity.
  - reflexivity.
Defined.

Lemma ZipWithGaps_merge_permutation_witness :
  exists s' tr,
    (forall fuel, (length [3; 1] + length [2; 3] <= fuel)%nat ->
       ZipWithGaps fuel (traced (sliceZipper [3; 1] [2; 3])) ([], []) =
       Returned (s', tr)) /\
    Permutation (merged [3; 1] [2; 3] tr) ([3; 1] ++ [2; 3]).
Proof.
  apply (@ZipWithGaps_merge_permutation go_ord (list Entry)
           (sliceZipper [3; 1] [2; 3]) [3; 1] [2; 3] [] [] []).
  - apply sliceZipper_valid.
  - reflexivity.
  - reflexivity.
  - simpl. small_int.
  - simpl. small_int.
Defined.

End MoreConcreteRuns.
